(** * semver-releaser: configuration language, commit parser, bump rules
      and release notes

    A shallow embedding of the Go sources [eql.Parse] (package [eql]) and of
    [ParseCommit], [determineBump], [makeReleaseText], [parseSemVer] and the
    commit loop and version switch of [run] (package [main]), and of
    [ParseCommit], [Commits.ChangeKind] and [makeRelease] of the earlier
    version of the program that [main.go] also holds (module [earlier]).

    Conventions of the embedding.
    - A Go [string] is a sequence of bytes: Rocq's [string].  The sources
      compare runes only against ASCII characters, and a byte of a multi-byte
      UTF-8 sequence is never an ASCII byte, so scanning byte by byte visits
      the same ASCII characters at the same byte offsets as Go's
      [for i, r := range str], where [i] is the byte offset of [r].  Texts
      are taken to be valid UTF-8, so that the runes that [eql.Parse]
      collects are written back as the bytes they were read from.
    - [strings.ToLower] and [strings.TrimSpace] are modelled on ASCII: bytes
      outside [A-Z] are left unchanged, and the white space trimmed is
      tab, line feed, vertical tab, form feed, carriage return and space.
      On ASCII text they are Go's functions; Go also lowers the letters and
      trims the white space that UTF-8 writes with several bytes.  The
      general theorems state their results through these two functions:
      their proofs evaluate them on ASCII literals only, and use of
      [TrimSpace] that trimming twice is trimming once and that trimming
      adds no byte.
    - A Go [map[string]string] is a [gmap string string].  A [range] over a
      map visits its entries in an order chosen by the runtime: every
      function that ranges over a map takes the order of that traversal as an
      argument, and theorems quantify over all traversals of the map.
    - Go's [int] is 64 bits wide: arithmetic on it is on [Z], wrapped. *)

From Stdlib Require Import ZArith Ascii String List Bool Lia.
From Stdlib Require Import DecimalString DecimalPos DecimalZ.
From stdpp Require Import gmap strings list fin_maps.

Local Open Scope Z_scope.
Local Open Scope nat_scope.

(** ** Characters used by the sources *)

Definition chSpace : ascii := "032"%char.
Definition chEq : ascii := "061"%char.
Definition chDQuote : ascii := "034"%char.
Definition chSQuote : ascii := "039"%char.
Definition chBackslash : ascii := "092"%char.
Definition chNL : ascii := "010"%char.
Definition chLParen : ascii := "040"%char.
Definition chRParen : ascii := "041"%char.
Definition chColon : ascii := "058"%char.
Definition chBang : ascii := "033"%char.
Definition chDot : ascii := "046"%char.

(** One-character strings, to write inputs that contain quotes, backslashes
    and line feeds. *)
Definition str1 (c : ascii) : string := String c EmptyString.
Definition dq : string := str1 chDQuote.
Definition bs : string := str1 chBackslash.
Definition nl : string := str1 chNL.

(** ** Go's [strings] package, on bytes *)

Module strings.

Definition lowerByte (c : ascii) : ascii :=
  let n := nat_of_ascii c in
  if (65 <=? n)%nat && (n <=? 90)%nat then ascii_of_nat (n + 32) else c.

Fixpoint ToLower (s : string) : string :=
  match s with
  | EmptyString => EmptyString
  | String c r => String (lowerByte c) (ToLower r)
  end.

Definition isSpace (c : ascii) : bool :=
  let n := nat_of_ascii c in
  ((9 <=? n)%nat && (n <=? 13)%nat) || (n =? 32)%nat.

Fixpoint trimLeft (s : string) : string :=
  match s with
  | EmptyString => EmptyString
  | String c r => if isSpace c then trimLeft r else s
  end.

(** [trimRight] drops the white space that ends the string. *)
Fixpoint trimRight (s : string) : string :=
  match s with
  | EmptyString => EmptyString
  | String c r =>
      match trimRight r with
      | EmptyString => if isSpace c then EmptyString else str1 c
      | r' => String c r'
      end
  end.

Definition TrimSpace (s : string) : string := trimRight (trimLeft s).

Fixpoint HasPrefix (s prefix : string) : bool :=
  match prefix, s with
  | EmptyString, _ => true
  | String p prefix', String c s' => Ascii.eqb c p && HasPrefix s' prefix'
  | String _ _, EmptyString => false
  end.

Fixpoint dropPrefix (s prefix : string) : string :=
  match prefix, s with
  | String _ prefix', String _ s' => dropPrefix s' prefix'
  | _, _ => s
  end.

Definition TrimPrefix (s prefix : string) : string :=
  if HasPrefix s prefix then dropPrefix s prefix else s.

(** [Split s sep] for a one-byte separator; never empty: a string without
    the separator is returned as the only element. *)
Fixpoint Split (s : string) (sep : ascii) : list string :=
  match s with
  | EmptyString => [EmptyString]
  | String c r =>
      if Ascii.eqb c sep then EmptyString :: Split r sep
      else match Split r sep with
           | h :: t => String c h :: t
           | [] => [str1 c]
           end
  end.

Fixpoint Join (elems : list string) (sep : string) : string :=
  match elems with
  | [] => EmptyString
  | [e] => e
  | e :: rest => e +:+ sep +:+ Join rest sep
  end.

Fixpoint Contains (s substr : string) : bool :=
  HasPrefix s substr
  || match s with
     | EmptyString => false
     | String _ r => Contains r substr
     end.

End strings.

(** ** Go's [unicode/utf8] package *)

Module utf8.

(** A byte [10xxxxxx], which continues a character of several bytes. *)
Definition isContinuation (c : ascii) : bool :=
  let n := nat_of_ascii c in (128 <=? n)%nat && (n <=? 191)%nat.

(** The number of characters of a text in valid UTF-8: its bytes that do
    not continue a character. *)
Fixpoint RuneCountInString (s : string) : nat :=
  match s with
  | EmptyString => 0
  | String c r =>
      (if isContinuation c then 0 else 1) + RuneCountInString r
  end.

End utf8.

(** ** Package [eql]: the key=value configuration language *)

Module eql.

Inductive state := stateKey | stateValue | stateQuote.

(** The two [fmt.Errorf] results of [Parse]. *)
Inductive error :=
| UnexpectedEq (position : nat)   (* "unexpected = at position %d" *)
| UnterminatedQuote.              (* "unterminated quoted string" *)

(** The local variables of [Parse] that the loop body reads and writes. *)
Record scanner := Scanner {
  s : state;
  isEscaping : bool;
  quoteStyle : ascii;
  tmpKey : string;
  tmpValue : string;
  result : gmap string string
}.

Definition initial : scanner :=
  Scanner stateKey false chSpace EmptyString EmptyString ∅.

Definition isEmpty (t : string) : bool :=
  match t with EmptyString => true | _ => false end.

(** [append(t, r)] *)
Definition push (t : string) (r : ascii) : string := t +:+ str1 r.

Definition pushAndReset (sc : scanner) : scanner :=
  let k := strings.TrimSpace (tmpKey sc) in
  let v := strings.TrimSpace (tmpValue sc) in
  Scanner stateKey false (quoteStyle sc) EmptyString EmptyString
          (<[k := v]> (result sc)).

(** One iteration of [for i, r := range str]. *)
Definition step (i : nat) (r : ascii) (sc : scanner) : scanner + error :=
  match s sc with
  | stateKey =>
      if Ascii.eqb r chSpace && isEmpty (tmpKey sc) then inl sc
      else if Ascii.eqb r chEq then
        if isEmpty (tmpKey sc) then inr (UnexpectedEq (i + 1))
        else inl (Scanner stateValue (isEscaping sc) (quoteStyle sc)
                          (tmpKey sc) (tmpValue sc) (result sc))
      else inl (Scanner stateKey (isEscaping sc) (quoteStyle sc)
                        (push (tmpKey sc) r) (tmpValue sc) (result sc))
  | stateValue =>
      if isEmpty (tmpValue sc) && Ascii.eqb r chSpace then inl sc
      else if Ascii.eqb r chDQuote
              || (Ascii.eqb r chSQuote && isEmpty (tmpValue sc)) then
        inl (Scanner stateQuote (isEscaping sc) r
                     (tmpKey sc) (tmpValue sc) (result sc))
      else if Ascii.eqb r chSpace then inl (pushAndReset sc)
      else inl (Scanner stateValue (isEscaping sc) (quoteStyle sc)
                        (tmpKey sc) (push (tmpValue sc) r) (result sc))
  | stateQuote =>
      if Ascii.eqb r chBackslash then
        inl (Scanner stateQuote true (quoteStyle sc)
                     (tmpKey sc) (tmpValue sc) (result sc))
      else if isEscaping sc then
        let v := if negb (Ascii.eqb r (quoteStyle sc))
                 then push (tmpValue sc) chBackslash else tmpValue sc in
        inl (Scanner stateQuote false (quoteStyle sc)
                     (tmpKey sc) (push v r) (result sc))
      else if negb (isEscaping sc) && Ascii.eqb r (quoteStyle sc) then
        inl (pushAndReset sc)
      else inl (Scanner stateQuote (isEscaping sc) (quoteStyle sc)
                        (tmpKey sc) (push (tmpValue sc) r) (result sc))
  end.

(** The loop over the input, from byte offset [i]; it stops at the first
    error. *)
Fixpoint scan (i : nat) (str : string) (sc : scanner) : scanner + error :=
  match str with
  | EmptyString => inl sc
  | String r rest =>
      match step i r sc with
      | inl sc' => scan (S i) rest sc'
      | inr e => inr e
      end
  end.

Definition Parse (str : string) : gmap string string + error :=
  match scan 0 str initial with
  | inr e => inr e
  | inl sc =>
      match s sc with
      | stateQuote => inr UnterminatedQuote
      | stateValue => inl (result (pushAndReset sc))
      | stateKey => inl (result sc)
      end
  end.

End eql.

(** ** Go's [regexp] package: the fragment the two patterns use *)

Module regexp.

(** Regular expressions over bytes.  A class is a predicate on bytes; a
    negated class and [.] are classes.  Go compiles patterns with the Perl
    flags: a negated class matches a line feed, [.] does not, and [^] and
    [$] match only at the two ends of the text. *)
Inductive re :=
| Void
| Eps
| Class (p : ascii → bool)
| Cat (a b : re)
| Alt (a b : re)
| Star (a : re).

Definition Lit (c : ascii) : re := Class (Ascii.eqb c).
Definition noneOf (cs : list ascii) (c : ascii) : bool :=
  negb (existsb (Ascii.eqb c) cs).
Definition NoneOf (cs : list ascii) : re := Class (noneOf cs).
Definition Dot : re := NoneOf [chNL].
Definition Any : re := Class (λ _, true).
Definition Plus (a : re) : re := Cat a (Star a).
Definition Opt (a : re) : re := Alt a Eps.
Definition AtLeast2 (a : re) : re := Cat a (Cat a (Star a)).
(** A capturing or non-capturing group does not change what matches. *)
Definition Group (a : re) : re := a.

(** A compiled pattern: [Anchored a] is [^a$], [Floating a] is [a]
    without anchors, which [MatchString] searches anywhere in the text. *)
Inductive Regexp := Anchored (a : re) | Floating (a : re).

Fixpoint nullable (a : re) : bool :=
  match a with
  | Void => false
  | Eps => true
  | Class _ => false
  | Cat a b => nullable a && nullable b
  | Alt a b => nullable a || nullable b
  | Star _ => true
  end.

(** Constructors that erase [Void] and [Eps], to keep derivatives small. *)
Definition cat (a b : re) : re :=
  match a, b with
  | Void, _ => Void
  | _, Void => Void
  | Eps, _ => b
  | _, _ => Cat a b
  end.

Definition alt (a b : re) : re :=
  match a, b with
  | Void, _ => b
  | _, Void => a
  | _, _ => Alt a b
  end.

(** Brzozowski derivative: what is left to match after the byte [c]. *)
Fixpoint deriv (c : ascii) (a : re) : re :=
  match a with
  | Void => Void
  | Eps => Void
  | Class p => if p c then Eps else Void
  | Cat a b =>
      if nullable a then alt (cat (deriv c a) b) (deriv c b)
      else cat (deriv c a) b
  | Alt a b => alt (deriv c a) (deriv c b)
  | Star a => cat (deriv c a) (Star a)
  end.

(** The whole text matches [a]. *)
Fixpoint matchAll (a : re) (text : string) : bool :=
  match text with
  | EmptyString => nullable a
  | String c rest => matchAll (deriv c a) rest
  end.

Definition MatchString (p : Regexp) (text : string) : bool :=
  match p with
  | Anchored a => matchAll a text
  | Floating a => matchAll (Cat (Star Any) (Cat a (Star Any))) text
  end.

(** The denotation of a regular expression, to reason about [matchAll]. *)
Inductive matches : re → string → Prop :=
| MEps : matches Eps EmptyString
| MClass p c : p c = true → matches (Class p) (str1 c)
| MCat a b s1 s2 :
    matches a s1 → matches b s2 → matches (Cat a b) (s1 +:+ s2)
| MAltL a b s1 : matches a s1 → matches (Alt a b) s1
| MAltR a b s2 : matches b s2 → matches (Alt a b) s2
| MStar0 a : matches (Star a) EmptyString
| MStarS a s1 s2 :
    matches a s1 → matches (Star a) s2 → matches (Star a) (s1 +:+ s2).

End regexp.

Import regexp.

(** ** Package [main] *)

Inductive SemVerComponent :=
| SemVerNone
| SemVerPatch
| SemVerMinor
| SemVerMajor.

(** The [iota] values of the constants, which the source compares with
    [>] and [==]. *)
Definition rank (k : SemVerComponent) : nat :=
  match k with
  | SemVerNone => 0
  | SemVerPatch => 1
  | SemVerMinor => 2
  | SemVerMajor => 3
  end.

Definition gtK (a b : SemVerComponent) : bool := (rank b <? rank a)%nat.
Definition eqK (a b : SemVerComponent) : bool := (rank a =? rank b)%nat.

(** [Type] is reserved in Rocq: the field [Type] of the source is [Type_]. *)
Record ConventionalCommit := {
  Type_ : string;
  SemVerChange : SemVerComponent;
  Scope : string;
  Description : string;
  Body : string;
  Bang : bool
}.

Definition Commits := list ConventionalCommit.

Record Context := {
  Token : string;
  Push : bool;
  Rules : gmap string string;
  Categories : gmap string string;
  Ignore : list string
}.

(** The header pattern
    [^ ([^(:!]+) (?: \( ([^)]+) \) )? (!)? ": " ([^\n]+) $],
    written here with blanks between its parts. *)
Definition conventionalRegexp : regexp.Regexp :=
  Anchored
    (Cat (Group (Plus (NoneOf [chLParen; chColon; chBang])))
    (Cat (Opt (Group (Cat (Lit chLParen)
                     (Cat (Group (Plus (NoneOf [chRParen])))
                          (Lit chRParen)))))
    (Cat (Opt (Group (Lit chBang)))
    (Cat (Lit chColon)
    (Cat (Lit chSpace)
         (Group (Plus (NoneOf [chNL])))))))).

(** The multi-line pattern [(.+) \n{2,} (G)+] where [G] is [.+] followed
    by any number of line feeds; it has no anchors. *)
Definition multiLineCommit : regexp.Regexp :=
  Floating
    (Cat (Group (Plus Dot))
    (Cat (AtLeast2 (Lit chNL))
         (Plus (Group (Cat (Plus Dot) (Star (Lit chNL))))))).

(** Every byte of the text satisfies [p]. *)
Fixpoint allb (p : ascii → bool) (s : string) : bool :=
  match s with
  | EmptyString => true
  | String c r => p c && allb p r
  end.

(** The longest prefix of bytes that satisfy [p], and what follows it. *)
Fixpoint span (p : ascii → bool) (text : string) : string * string :=
  match text with
  | EmptyString => (EmptyString, EmptyString)
  | String c rest =>
      if p c then let '(a, b) := span p rest in (String c a, b)
      else (EmptyString, text)
  end.

(** [conventionalRegexp.FindStringSubmatch(msg)], groups 1 to 4: the pattern
    reads the text from left to right without a choice (a class always ends
    at the first byte outside it), so the groups are found by one pass.  A
    group that takes no part in the match is the empty string. *)
Definition FindStringSubmatch_conventional (msg : string)
  : option (string * string * string * string) :=
  let '(kind, rest) := span (regexp.noneOf [chLParen; chColon; chBang]) msg in
  if eql.isEmpty kind then None else
  let afterScope :=
    match rest with
    | String c inner =>
        if Ascii.eqb c chLParen then
          let '(scope, closing) := span (regexp.noneOf [chRParen]) inner in
          match closing with
          | String c' after =>
              if Ascii.eqb c' chRParen && negb (eql.isEmpty scope)
              then Some (scope, after) else None
          | EmptyString => None
          end
        else Some (EmptyString, rest)
    | EmptyString => Some (EmptyString, rest)
    end in
  match afterScope with
  | None => None
  | Some (scope, rest) =>
      let '(bang, rest) :=
        match rest with
        | String c after =>
            if Ascii.eqb c chBang then (str1 chBang, after)
            else (EmptyString, rest)
        | EmptyString => (EmptyString, rest)
        end in
      match rest with
      | String c1 (String c2 change) =>
          if Ascii.eqb c1 chColon && Ascii.eqb c2 chSpace then
            let '(line, after) := span (regexp.noneOf [chNL]) change in
            if negb (eql.isEmpty line) && eql.isEmpty after
            then Some (kind, scope, bang, change) else None
          else None
      | _ => None
      end
  end.

(** The text of the optional scope: the scope between parentheses, or
    nothing when the group takes no part in the match. *)
Definition scopeText (scope : string) : string :=
  if eql.isEmpty scope then EmptyString
  else str1 chLParen +:+ scope +:+ str1 chRParen.

(** The shape of a text that the header pattern matches, group by group. *)
Definition headerShape (msg kind scope bang change : string) : Prop :=
  msg = kind +:+ scopeText scope +:+ bang +:+ ": " +:+ change
  ∧ kind ≠ EmptyString
  ∧ allb (noneOf [chLParen; chColon; chBang]) kind = true
  ∧ allb (noneOf [chRParen]) scope = true
  ∧ (bang = EmptyString ∨ bang = str1 chBang)
  ∧ change ≠ EmptyString
  ∧ allb (noneOf [chNL]) change = true.

Definition setBang (res : ConventionalCommit) : ConventionalCommit :=
  {| Type_ := Type_ res; SemVerChange := SemVerChange res;
     Scope := Scope res; Description := Description res;
     Body := Body res; Bang := true |}.

Definition setBody (res : ConventionalCommit) (body : string)
  : ConventionalCommit :=
  {| Type_ := Type_ res; SemVerChange := SemVerChange res;
     Scope := Scope res; Description := Description res;
     Body := body; Bang := Bang res |}.

Definition isBreakingFooter (l : string) : bool :=
  strings.HasPrefix (strings.ToLower l) "breaking change:".

(** The body of [ParseCommit] for a message that is not multi-line. *)
Definition parseHeader (msg : string) : option ConventionalCommit :=
  if negb (MatchString conventionalRegexp msg) then None
  else
    match FindStringSubmatch_conventional msg with
    | Some (kind, scope, bang, change) =>
        Some {| Type_ := kind; SemVerChange := SemVerNone;
                Scope := scope; Description := change;
                Body := EmptyString;
                Bang := String.eqb bang (str1 chBang) |}
    | None => None
    end.

(** [ParseCommit] calls itself on the first line of a multi-line message:
    [fuel] bounds the depth of the calls; the outer [None] is a call that ran
    out of fuel, the inner [None] is the [nil] result. *)
Fixpoint ParseCommitFuel (fuel : nat) (msg : string)
  : option (option ConventionalCommit) :=
  match fuel with
  | O => None
  | S fuel' =>
      if regexp.MatchString multiLineCommit msg then
        let lines := strings.Split msg chNL in
        match ParseCommitFuel fuel' (hd EmptyString lines) with
        | None => None
        | Some None => Some None
        | Some (Some res) =>
            let res :=
              fold_left (λ res l, if isBreakingFooter l then setBang res
                                  else res) (tl lines) res in
            Some (Some (setBody res (strings.Join (tl lines) nl)))
        end
      else if negb (regexp.MatchString conventionalRegexp msg) then Some None
      else
        match FindStringSubmatch_conventional msg with
        | Some (kind, scope, bang, change) =>
            Some (Some {| Type_ := kind; SemVerChange := SemVerNone;
                          Scope := scope; Description := change;
                          Body := EmptyString;
                          Bang := String.eqb bang (str1 chBang) |})
        | None => Some None
        end
  end.

(** The first line of a message has no line feed, so the call on it never
    calls again: two levels are enough (theorem [ParseCommit_fuel]). *)
Definition ParseCommit (msg : string) : option ConventionalCommit :=
  match ParseCommitFuel 2 msg with
  | Some res => res
  | None => None
  end.

(** [semverString] and [semverFromString] *)
Definition semverString (n : string) : option SemVerComponent :=
  if String.eqb n "patch" then Some SemVerPatch
  else if String.eqb n "minor" then Some SemVerMinor
  else if String.eqb n "major" then Some SemVerMajor
  else None.

Definition semverFromString (n : string) : SemVerComponent :=
  let n := strings.TrimSpace (strings.ToLower n) in
  match semverString n with
  | Some v => v
  | None => SemVerNone
  end.

(** The local [components] of [determineBump], a
    [map[SemVerComponent][]string]: [None] is an absent key. *)
Definition componentsMap := SemVerComponent → option (list string).

Definition appendComponent (components : componentsMap)
    (k : SemVerComponent) (ruleName : string) : componentsMap :=
  λ k', if eqK k' k
        then Some (match components k with Some l => l | None => [] end
                   ++ [ruleName])
        else components k'.

(** The loop [for ruleName, kind := range c.Rules], over the entries in the
    order [rulesRange] in which the runtime yields them. *)
Definition groupRules (rulesRange : list (string * string))
  : SemVerComponent * componentsMap :=
  fold_left
    (λ '(bang, components) '(ruleName, kind),
       if String.eqb ruleName "bang" then (semverFromString kind, components)
       else (bang, appendComponent components (semverFromString kind) ruleName))
    rulesRange (SemVerNone, λ _, None).

Definition comps : list SemVerComponent :=
  [SemVerMajor; SemVerMinor; SemVerPatch].

(** The labelled loop [compLoop], from the components left to visit. *)
Fixpoint compLoop (components : componentsMap) (prefix : string)
    (toBump : SemVerComponent) (vs : list SemVerComponent)
  : SemVerComponent :=
  match vs with
  | [] => toBump
  | v :: vs' =>
      match components v with
      | None => compLoop components prefix toBump vs'
      | Some prefixes =>
          if gtK toBump v then compLoop components prefix toBump vs'
          else if existsb (λ pr, String.eqb (strings.ToLower pr) prefix)
                          prefixes
          then v
          else compLoop components prefix toBump vs'
      end
  end.

(** The body of the loop over the commits, for a commit that is reached
    (the aggregate is not yet [SemVerMajor]). *)
Definition bumpStep (hasBang : bool) (bang : SemVerComponent)
    (components : componentsMap) (toBump : SemVerComponent)
    (r : ConventionalCommit) : SemVerComponent :=
  if Bang r && hasBang && gtK bang toBump then bang
  else compLoop components (strings.ToLower (Type_ r)) toBump comps.

Fixpoint bumpLoop (hasBang : bool) (bang : SemVerComponent)
    (components : componentsMap) (toBump : SemVerComponent)
    (commits : Commits) : SemVerComponent :=
  match commits with
  | [] => toBump
  | r :: rest =>
      if eqK toBump SemVerMajor then toBump
      else bumpLoop hasBang bang components
                    (bumpStep hasBang bang components toBump r) rest
  end.

Definition determineBump (c : Context) (rulesRange : list (string * string))
    (commits : Commits) : SemVerComponent :=
  let hasBang := bool_decide (is_Some (Rules c !! "bang")) in
  let '(bang, components) := groupRules rulesRange in
  bumpLoop hasBang bang components SemVerNone commits.

Definition formatCommit (c : ConventionalCommit) : string :=
  if negb (eql.isEmpty (Scope c))
  then "- **" +:+ Scope c +:+ "**: " +:+ Description c
  else "- " +:+ Description c.

(** The lines appended to [others]. *)
Definition formatOther (r : ConventionalCommit) : string :=
  if negb (eql.isEmpty (Scope r))
  then "- " +:+ Type_ r +:+ "(" +:+ Scope r +:+ "): " +:+ Description r
  else "- " +:+ Type_ r +:+ ": " +:+ Description r.

(** [makeReleaseText] ranges over [c.Categories] once to look for ["*"],
    once for every commit, and once to write the output: the orders in which
    the runtime yields the entries in each of these loops. *)
Record ranges := {
  rangeOther : list (string * string);
  rangeMatch : nat → list (string * string);
  rangeOutput : list (string * string)
}.

(** Every loop visits each entry of the map once. *)
Definition ranges_of (m : gmap string string) (rg : ranges) : Prop :=
  rangeOther rg ≡ₚ map_to_list m
  ∧ (∀ i, rangeMatch rg i ≡ₚ map_to_list m)
  ∧ rangeOutput rg ≡ₚ map_to_list m.

(** The loop that looks for the category of a commit: the first entry
    visited, other than ["*"], whose lowered key is the lowered type. *)
Fixpoint findCategory (commitType : string) (order : list (string * string))
  : option string :=
  match order with
  | [] => None
  | (cat, _) :: rest =>
      if String.eqb cat "*" then findCategory commitType rest
      else if String.eqb commitType (strings.ToLower cat) then Some cat
      else findCategory commitType rest
  end.

(** The loop over the commits: the buckets [categories] and the list
    [others] after the commits from index [i] on. *)
Fixpoint bucketLoop (rg : ranges) (usesOther : bool) (i : nat)
    (commits : Commits)
    (categories : gmap string (list string)) (others : list string)
  : gmap string (list string) * list string :=
  match commits with
  | [] => (categories, others)
  | r :: rest =>
      let commitType := strings.ToLower (Type_ r) in
      match findCategory commitType (rangeMatch rg i) with
      | Some cat =>
          let arr := match categories !! cat with
                     | Some v => v
                     | None => []
                     end in
          bucketLoop rg usesOther (S i) rest
                     (<[cat := arr ++ [formatCommit r]]> categories) others
      | None =>
          bucketLoop rg usesOther (S i) rest categories
                     (if usesOther then others ++ [formatOther r] else others)
      end
  end.

(** The lines that the loop over the categories appends for one entry. *)
Definition sectionOf (categories : gmap string (list string))
    (entry : string * string) : list string :=
  match categories !! strings.ToLower entry.1 with
  | Some items => ("# " +:+ entry.2) :: items
  | None => []
  end.

(** The slice [output] before [strings.Join]; the source does not read
    [others] after the loop over the commits. *)
Definition releaseLines (c : Context) (rg : ranges) (commits : Commits)
  : list string :=
  let usesOther := existsb (λ e, String.eqb e.1 "*") (rangeOther rg) in
  let '(categories, others) := bucketLoop rg usesOther 0 commits ∅ [] in
  fold_left (λ output entry, output ++ sectionOf categories entry)
            (rangeOutput rg) [].

Definition makeReleaseText (c : Context) (rg : ranges) (commits : Commits)
  : string :=
  strings.Join (releaseLines c rg commits) nl.

(** *** Version arithmetic of [run] *)

Definition maxInt64 : Z := (2 ^ 63 - 1)%Z.
Definition minInt64 : Z := (- 2 ^ 63)%Z.

(** [x++] on an [int]. *)
Definition incr (x : Z) : Z :=
  ((x + 1 + 2 ^ 63) mod 2 ^ 64 - 2 ^ 63)%Z.

Definition isDigit (c : ascii) : bool :=
  let n := nat_of_ascii c in (48 <=? n)%nat && (n <=? 57)%nat.

Definition maxUint64 : Z := (2 ^ 64 - 1)%Z.

(** The value that [strconv.Atoi] returns, the error being dropped by the
    caller.  After an optional sign, [strconv.ParseUint] reads the bytes
    from the left.  A byte that is no digit is a syntax error and the value
    is [0], unless the digits before it already exceed [maxUint64]: the
    range error is returned at the digit that overflows, before the rest is
    read.  On a range error, and for a number that does not fit an [int],
    the value is the nearest bound. *)
Definition Atoi (text : string) : Z :=
  let '(neg, digits) :=
    match text with
    | String c r =>
        if Ascii.eqb c "-"%char then (true, r)
        else if Ascii.eqb c "+"%char then (false, r)
        else (false, text)
    | EmptyString => (false, text)
    end in
  if eql.isEmpty digits then 0%Z
  else match NilEmpty.uint_of_string digits with
       | Some d =>
           let n := if neg then (- Z.of_uint d)%Z else Z.of_uint d in
           Z.max minInt64 (Z.min maxInt64 n)
       | None =>
           let '(leading, _) := span isDigit digits in
           match NilEmpty.uint_of_string leading with
           | Some d =>
               if (maxUint64 <? Z.of_uint d)%Z
               then (if neg then minInt64 else maxInt64)
               else 0%Z
           | None => 0%Z
           end
       end.

(** The verb [%d] of [fmt.Sprintf]. *)
Definition formatInt (x : Z) : string := NilZero.string_of_int (Z.to_int x).

(** [parseSemVer]; [None] is the panic of an index out of range. *)
Definition parseSemVer (v : string) : option (Z * Z * Z) :=
  let rawComponents := strings.Split (strings.TrimPrefix v "v") chDot in
  match rawComponents with
  | c0 :: c1 :: c2 :: _ => Some (Atoi c0, Atoi c1, Atoi c2)
  | _ => None
  end.

(** [fmt.Sprintf("v%d.%d.%d", major, minor, patch)] *)
Definition versionString (major minor patch : Z) : string :=
  "v" +:+ formatInt major +:+ "." +:+ formatInt minor
      +:+ "." +:+ formatInt patch.

(** The [switch bumpKind] of [run] and the [Sprintf] that follows: [None]
    is the [return] of the case [SemVerNone]. *)
Definition bumpVersion (version : Z * Z * Z) (bumpKind : SemVerComponent)
  : option string :=
  let '(major, minor, patch) := version in
  let next :=
    match bumpKind with
    | SemVerPatch => Some (major, minor, incr patch)
    | SemVerMinor => Some (major, incr minor, 0%Z)
    | SemVerMajor => Some (incr major, 0%Z, 0%Z)
    | SemVerNone => None
    end in
  match next with
  | Some (major, minor, patch) => Some (versionString major minor patch)
  | None => None
  end.

(** *** The commit loop of [run] *)

(** What [run] reads of a commit of the log. *)
Record Commit := {
  Hash : string;
  Message : string
}.

(** The loop over [c.Ignore] inside the commit loop: its [continue] goes on
    with the next entry of [c.Ignore]; it counts and does nothing else. *)
Definition countIgnored (ignore : list string) (conv : ConventionalCommit)
    (excluded : nat) : nat :=
  fold_left (λ excluded v,
               if String.eqb (strings.ToLower v) (Type_ conv)
               then S excluded else excluded)
            ignore excluded.

(** The loop [for { commit, err := commits.Next() ... }]: [None] is the
    [abort] when the log ends before the commit [head]. *)
Fixpoint collect (c : Context) (head : string) (log : list Commit)
    (conventionals : Commits) (excluded : nat) : option (Commits * nat) :=
  match log with
  | [] => None
  | commit :: rest =>
      if String.eqb (Hash commit) head then Some (conventionals, excluded)
      else
        match ParseCommit (strings.TrimSpace (Message commit)) with
        | Some conv =>
            collect c head rest (conventionals ++ [conv])
                    (countIgnored (Ignore c) conv excluded)
        | None => collect c head rest conventionals excluded
        end
  end.

Inductive outcome :=
| Aborted                 (* [abort]: the process exits with status 1 *)
| Panicked                (* index out of range in [parseSemVer] *)
| NoNewCommits            (* "No new commits to release." *)
| NoBump                  (* "No need to bump version." *)
| Releasing (nextVersion : string) (conventionals : Commits).

(** [run] from the commit loop to [nextVersion], given the latest version
    and the commit [head] of the last release found before. *)
Definition run (c : Context) (rulesRange : list (string * string))
    (latestVersion head : string) (log : list Commit) : outcome :=
  match collect c head log [] 0 with
  | None => Aborted
  | Some (conventionals, excluded) =>
      if (length conventionals =? 0)%nat then NoNewCommits
      else
        match parseSemVer latestVersion with
        | None => Panicked
        | Some version =>
            match bumpVersion version (determineBump c rulesRange conventionals) with
            | None => NoBump
            | Some nextVersion => Releasing nextVersion conventionals
            end
        end
  end.

(** ** Notions used to state properties of [eql.Parse] *)






(** What [eql.Parse] keeps for the scanners it goes through: the pending
    key has no [=], and the keys and values of the result are trimmed, the
    keys without [=]. *)
Definition noEq (c : ascii) : bool := negb (Ascii.eqb c chEq).

Definition scannerInv (sc : eql.scanner) : Prop :=
  allb noEq (eql.tmpKey sc) = true
  ∧ ∀ k v, eql.result sc !! k = Some v →
      strings.TrimSpace k = k ∧ strings.TrimSpace v = v
      ∧ allb noEq k = true.

(** ** The first loop of [run]: the severities of the rules *)

(** The test of the loop [for _, r := range c.Rules] at the start of [run]:
    the lowered value is one of the three severities. *)
Definition validSeverity (r : string) : bool :=
  let r := strings.ToLower r in
  negb (negb (String.eqb r "patch") && negb (String.eqb r "minor")
        && negb (String.eqb r "major")).

(** The loop itself, over the entries in the order [rulesRange]: [false]
    is the exit with status 1 on the first value that is not a severity. *)
Definition checkRules (rulesRange : list (string * string)) : bool :=
  forallb (λ e, validSeverity e.2) rulesRange.

(** ** Notions used to state properties of [determineBump] *)

(** The rule [e] is not the rule "bang" and has the severity [k]. *)
Definition isRuleOf (k : SemVerComponent) (e : string * string) : bool :=
  negb (String.eqb e.1 "bang") && eqK (semverFromString e.2) k.

(** The names of the rules of severity [k], in the order of the traversal. *)
Definition ruleNames (k : SemVerComponent) (rulesRange : list (string * string))
  : list string :=
  (List.filter (isRuleOf k) rulesRange).*1.

(** The type of the commit [r] is, up to case, the name [name]. *)
Definition typeIs (r : ConventionalCommit) (name : string) : Prop :=
  strings.ToLower name = strings.ToLower (Type_ r).

(** The step of the loop over the rules, as a function on the pair of the
    severity of "bang" and the components. *)
Definition groupStep (acc : SemVerComponent * componentsMap)
    (rule : string * string) : SemVerComponent * componentsMap :=
  let '(bang, components) := acc in
  let '(ruleName, kind) := rule in
  if String.eqb ruleName "bang" then (semverFromString kind, components)
  else (bang, appendComponent components (semverFromString kind) ruleName).


(** Two maps of components with the same keys and, under each key, the
    same names in some order. *)
Definition sameComponents (c1 c2 : componentsMap) : Prop :=
  ∀ k, match c1 k, c2 k with
       | Some l1, Some l2 => l1 ≡ₚ l2
       | None, None => True
       | _, _ => False
       end.
(** ** Notions used to state properties of [makeReleaseText] *)

(** The lines of the commits whose lowered type is [cat], in the order of
    the commits. *)
Definition linesOf (cat : string) (commits : Commits) : list string :=
  formatCommit <$> List.filter
                     (λ r, String.eqb (strings.ToLower (Type_ r)) cat)
                     commits.

(** The section expected for a category: nothing for "*" and for a category
    without commits, else the title and the lines of its commits. *)
Definition expectedSection (commits : Commits) (entry : string * string)
  : list string :=
  if String.eqb entry.1 "*" then []
  else match linesOf entry.1 commits with
       | [] => []
       | lines => ("# " +:+ entry.2) :: lines
       end.
(** ** Notions used to state properties of [parseSemVer] and [run] *)

(** The number of bytes [sep] in a string. *)
Fixpoint countByte (sep : ascii) (s : string) : nat :=
  match s with
  | EmptyString => 0
  | String c r => (if Ascii.eqb c sep then 1 else 0) + countByte sep r
  end.

(** The conventional commits among the messages of a part of the log. *)
Definition parsedOf (log : list Commit) : Commits :=
  omap (λ commit, ParseCommit (strings.TrimSpace (Message commit))) log.

(** The number of pairs of a commit and an entry of the ignore list whose
    lowered form is the type of the commit as written. *)
Definition ignoredPairs (ignore : list string) (commits : Commits) : nat :=
  length (List.filter
            (λ p, String.eqb (strings.ToLower p.2) (Type_ p.1))
            (list_prod commits ignore)).

(** * The earlier version of the program *)

(** [main.go] holds two versions of the program.  The second one is the
    program before rules, categories and the ignore list could be given:
    the severity of a commit is decided by [ParseCommit], the bump by
    [Commits.ChangeKind] and the notes are written by [makeRelease].  Its
    patterns, [SemVerComponent] and [parseSemVer] are those of the later
    version, word for word. *)
Module earlier.

Inductive ConventionalChange :=
| ConventionalOther
| ConventionalFix
| ConventionalFeature.

Record ConventionalCommit := {
  Type_ : string;
  Change : ConventionalChange;
  SemVerChange : SemVerComponent;
  Scope : string;
  Description : string;
  Body : string
}.

Definition Commits := list ConventionalCommit.

(** [Commits.ChangeKind]; the keys of the map [m] are the [iota] values of
    the severities. *)
Definition ChangeKind (c : Commits) : SemVerComponent :=
  let m : gmap nat bool :=
    fold_left (λ m c, <[rank (SemVerChange c) := true]> m) c ∅ in
  if bool_decide (is_Some (m !! rank SemVerMajor)) then SemVerMajor
  else if bool_decide (is_Some (m !! rank SemVerMinor)) then SemVerMinor
  else if bool_decide (is_Some (m !! rank SemVerPatch)) then SemVerPatch
  else SemVerNone.

Definition formatCommit (c : ConventionalCommit) : string :=
  if negb (eql.isEmpty (Scope c))
  then "- **" +:+ Scope c +:+ "**: " +:+ Description c
  else "- " +:+ Description c.

(** The body of the loop of [makeRelease] over the commits, on the three
    slices [feats], [fixes] and [others]. *)
Definition releaseStep
    (acc : list string * list string * list string) (c : ConventionalCommit)
  : list string * list string * list string :=
  let '(feats, fixes, others) := acc in
  match Change c with
  | ConventionalFeature => (feats ++ [formatCommit c], fixes, others)
  | ConventionalFix => (feats, fixes ++ [formatCommit c], others)
  | ConventionalOther =>
      if negb (eql.isEmpty (Scope c))
      then (feats, fixes,
            others ++ ["- " +:+ Type_ c +:+ "(" +:+ Scope c +:+ "): "
                            +:+ Description c])
      else (feats, fixes,
            others ++ ["- " +:+ Type_ c +:+ ": " +:+ Description c])
  end.

(** The slice [output] of [makeRelease] before [strings.Join]. *)
Definition makeReleaseLines (conventionals : Commits) : list string :=
  let '(feats, fixes, others) :=
    fold_left releaseStep conventionals ([], [], []) in
  let output := [] in
  let output := if (0 <? length feats)%nat
                then (output ++ ["# ✨ New Features"]) ++ feats
                else output in
  let output := if (0 <? length fixes)%nat
                then (output ++ ["# 🐞 Bug Fixes"]) ++ fixes
                else output in
  let output := if (0 <? length others)%nat
                then (output ++ ["# 🔨 Other Changes"]) ++ others
                else output in
  output.

Definition makeRelease (conventionals : Commits) : string :=
  strings.Join (makeReleaseLines conventionals) nl.

Definition setSemVerChange (res : ConventionalCommit) (k : SemVerComponent)
  : ConventionalCommit :=
  {| Type_ := Type_ res; Change := Change res; SemVerChange := k;
     Scope := Scope res; Description := Description res;
     Body := Body res |}.

Definition setChange (res : ConventionalCommit) (change : ConventionalChange)
  : ConventionalCommit :=
  {| Type_ := Type_ res; Change := change;
     SemVerChange := SemVerChange res;
     Scope := Scope res; Description := Description res;
     Body := Body res |}.

Definition setBody (res : ConventionalCommit) (body : string)
  : ConventionalCommit :=
  {| Type_ := Type_ res; Change := Change res;
     SemVerChange := SemVerChange res;
     Scope := Scope res; Description := Description res;
     Body := body |}.

(** The body of [ParseCommit] for a message that is not multi-line. *)
Definition parseHeader (msg : string) : option ConventionalCommit :=
  if negb (MatchString conventionalRegexp msg) then None
  else
    match FindStringSubmatch_conventional msg with
    | Some (kind, scope, bang, change) =>
        let res := {| Type_ := kind; Change := ConventionalOther;
                      SemVerChange := SemVerNone;
                      Scope := scope; Description := change;
                      Body := EmptyString |} in
        let res :=
          if String.eqb (strings.ToLower kind) "fix"
          then setChange (setSemVerChange res SemVerPatch) ConventionalFix
          else if String.eqb (strings.ToLower kind) "feat"
          then setChange (setSemVerChange res SemVerMinor)
                         ConventionalFeature
          else res in
        let res := if String.eqb bang (str1 chBang)
                   then setSemVerChange res SemVerMajor else res in
        Some res
    | None => None
    end.

(** [ParseCommit], with the depth of its calls bounded by [fuel] as for
    the later version. *)
Fixpoint ParseCommitFuel (fuel : nat) (msg : string)
  : option (option ConventionalCommit) :=
  match fuel with
  | O => None
  | S fuel' =>
      if regexp.MatchString multiLineCommit msg then
        let lines := strings.Split msg chNL in
        match ParseCommitFuel fuel' (hd EmptyString lines) with
        | None => None
        | Some None => Some None
        | Some (Some res) =>
            let res :=
              fold_left (λ res l, if isBreakingFooter l
                                  then setSemVerChange res SemVerMajor
                                  else res) (tl lines) res in
            Some (Some (setBody res (strings.Join (tl lines) nl)))
        end
      else Some (parseHeader msg)
  end.

Definition ParseCommit (msg : string) : option ConventionalCommit :=
  match ParseCommitFuel 2 msg with
  | Some res => res
  | None => None
  end.

End earlier.

(** ** Notions used to compare the two versions *)

(** What the earlier version makes of the type of a commit. *)
Definition changeOf (kind : string) : earlier.ConventionalChange :=
  if String.eqb (strings.ToLower kind) "fix" then earlier.ConventionalFix
  else if String.eqb (strings.ToLower kind) "feat"
  then earlier.ConventionalFeature
  else earlier.ConventionalOther.

Definition severityOf (kind : string) (bang : bool) : SemVerComponent :=
  if bang then SemVerMajor
  else if String.eqb (strings.ToLower kind) "fix" then SemVerPatch
  else if String.eqb (strings.ToLower kind) "feat" then SemVerMinor
  else SemVerNone.

(** The commit of the earlier version with the fields of a commit of the
    later one. *)
Definition earlierOf (r : ConventionalCommit) : earlier.ConventionalCommit :=
  {| earlier.Type_ := Type_ r;
     earlier.Change := changeOf (Type_ r);
     earlier.SemVerChange := severityOf (Type_ r) (Bang r);
     earlier.Scope := Scope r;
     earlier.Description := Description r;
     earlier.Body := Body r |}.

(** The line of a commit in the notes of the earlier version. *)
Definition lineOf (c : earlier.ConventionalCommit) : string :=
  match earlier.Change c with
  | earlier.ConventionalOther =>
      if negb (eql.isEmpty (earlier.Scope c))
      then "- " +:+ earlier.Type_ c +:+ "(" +:+ earlier.Scope c +:+ "): "
                +:+ earlier.Description c
      else "- " +:+ earlier.Type_ c +:+ ": " +:+ earlier.Description c
  | _ => earlier.formatCommit c
  end.

(** The rules under which the later version bumps as the earlier one. *)
Definition earlierRules : list (string * string) :=
  [("fix", "patch"); ("feat", "minor"); ("bang", "major")].

(** The greater of two severities. *)
Definition maxK (a b : SemVerComponent) : SemVerComponent :=
  if gtK b a then b else a.

(** The commit [c] of the earlier version has the change [k]. *)
Definition hasChange (k : earlier.ConventionalChange)
    (c : earlier.ConventionalCommit) : bool :=
  match k, earlier.Change c with
  | earlier.ConventionalOther, earlier.ConventionalOther => true
  | earlier.ConventionalFix, earlier.ConventionalFix => true
  | earlier.ConventionalFeature, earlier.ConventionalFeature => true
  | _, _ => false
  end.

(** A section of the notes of the earlier version: nothing without items,
    else the title and the items. *)
Definition titled (title : string) (items : list string) : list string :=
  match items with
  | [] => []
  | _ => title :: items
  end.

(** ** Inputs of the examples *)

Definition commitOf (type scope description : string) (bang : bool)
  : ConventionalCommit :=
  {| Type_ := type; SemVerChange := SemVerNone; Scope := scope;
     Description := description; Body := EmptyString; Bang := bang |}.

Definition contextOf (rules categories : list (string * string))
    (ignore : list string) : Context :=
  {| Token := EmptyString; Push := false; Rules := list_to_map rules;
     Categories := list_to_map categories; Ignore := ignore |}.

(** The letter e with an acute accent, two bytes in UTF-8. *)
Definition eAcute : string := String "195"%char (str1 "169"%char).

(** The runtime yields the entries in the order [order] in every loop. *)
Definition sameOrder (order : list (string * string)) : ranges :=
  {| rangeOther := order; rangeMatch := λ _, order; rangeOutput := order |}.

Definition withIgnore (c : Context) (ignore : list string) : Context :=
  {| Token := Token c; Push := Push c; Rules := Rules c;
     Categories := Categories c; Ignore := ignore |}.

(** * Theorems *)

(** ** Strings *)

Lemma append_cons (c : ascii) (a b : string) :
  String c a +:+ b = String c (a +:+ b).
Proof. reflexivity. Qed.

Lemma append_nil_l (a : string) : EmptyString +:+ a = a.
Proof. reflexivity. Qed.

Lemma append_nil_r (a : string) : a +:+ EmptyString = a.
Proof. induction a as [|c a IH]; [done|]. by rewrite append_cons, IH. Qed.

Lemma append_assoc (a b c : string) : (a +:+ b) +:+ c = a +:+ (b +:+ c).
Proof.
  induction a as [|x a IH]; [done|]. by rewrite !append_cons, IH.
Qed.


Lemma append_eq_nil (a b : string) :
  a +:+ b = EmptyString → a = EmptyString ∧ b = EmptyString.
Proof. destruct a; [done|]. rewrite append_cons. discriminate. Qed.

Lemma isEmpty_true (t : string) : eql.isEmpty t = true ↔ t = EmptyString.
Proof. destruct t; simpl; split; congruence. Qed.

Lemma isEmpty_false (t : string) : eql.isEmpty t = false ↔ t ≠ EmptyString.
Proof. destruct t; simpl; split; congruence. Qed.

(** ** The configuration parser *)

Module eql_facts.
Import eql.

(** An iteration fails only on [=] in the state [stateKey] with an empty
    pending key, and reports the offset of the byte plus one. *)
Lemma step_error i r sc e :
  step i r sc = inr e ↔
  s sc = stateKey ∧ tmpKey sc = EmptyString ∧ r = chEq
  ∧ e = UnexpectedEq (i + 1).
Proof.
  unfold step. split.
  - destruct (s sc) eqn:Hs.
    + destruct (Ascii.eqb r chSpace && isEmpty (tmpKey sc)); [done|].
      destruct (Ascii.eqb_spec r chEq) as [->|]; [|done].
      destruct (isEmpty (tmpKey sc)) eqn:Hk; [|done].
      apply isEmpty_true in Hk. intros [= <-]. done.
    + repeat match goal with |- context [if ?b then _ else _] =>
               destruct b end; done.
    + repeat match goal with |- context [if ?b then _ else _] =>
               destruct b end; done.
  - intros (-> & -> & -> & ->). done.
Qed.

(** The scan fails exactly when it meets [=] after a prefix that leaves
    the scanner in [stateKey] with an empty pending key. *)
Lemma scan_error str : ∀ i sc e,
  scan i str sc = inr e ↔
  ∃ pre post sc',
    str = pre +:+ String chEq post ∧ scan i pre sc = inl sc'
    ∧ s sc' = stateKey ∧ tmpKey sc' = EmptyString
    ∧ e = UnexpectedEq (i + String.length pre + 1).
Proof.
  induction str as [|r rest IH]; intros i sc e; simpl.
  - split; [done|]. intros (pre & post & ? & Heq & _).
    symmetry in Heq. apply append_eq_nil in Heq as [_ ?]. done.
  - destruct (step i r sc) as [sc1|e1] eqn:Hstep.
    + rewrite IH. split.
      * intros (pre & post & sc' & -> & Hscan & Hs & Hk & ->).
        exists (String r pre), post, sc'. rewrite append_cons. simpl.
        rewrite Hstep. repeat split; try done. f_equal. lia.
      * intros (pre & post & sc' & Heq & Hscan & Hs & Hk & ->).
        destruct pre as [|r' pre].
        -- simpl in Hscan. injection Hscan as <-.
           rewrite append_nil_l in Heq. injection Heq as -> ->.
           assert (step i chEq sc = inr (UnexpectedEq (i + 1)))
             by (by apply step_error).
           congruence.
        -- rewrite append_cons in Heq. injection Heq as <- ->.
           simpl in Hscan. rewrite Hstep in Hscan.
           exists pre, post, sc'. repeat split; try done.
           simpl. f_equal. lia.
    + apply step_error in Hstep as (Hs & Hk & -> & ->). split.
      * intros [= <-]. exists EmptyString, rest, sc.
        repeat split; try done. simpl. f_equal. lia.
      * intros (pre & post & sc' & Heq & Hscan & Hs' & Hk' & ->).
        destruct pre as [|r' pre].
        -- simpl. do 2 f_equal. lia.
        -- rewrite append_cons in Heq. injection Heq as <- ->.
           simpl in Hscan.
           assert (step i chEq sc = inr (UnexpectedEq (i + 1))) as Hst
             by (by apply step_error).
           rewrite Hst in Hscan. done.
Qed.

End eql_facts.

(** C4 (the code departs from the claim).  A double quote enters the state
    [stateQuote] from [stateValue] whatever the value accumulated so far:
    the test reads [r == dquote || (r == squote && len(tmpValue) == 0)].  So
    in the input a=bQc, where Q is a double quote, the quote is not kept as
    a byte of the value bQc: the value is reopened as a quoted string that
    never ends.  A single quote at the same place is kept, as the claim
    says. *)
Theorem C4_double_quote_inside_value :
  (∀ i esc q k v res,
     eql.step i chDQuote (eql.Scanner eql.stateValue esc q k v res)
     = inl (eql.Scanner eql.stateQuote esc chDQuote k v res))
  ∧ eql.Parse ("a=b" +:+ dq +:+ "c") = inr eql.UnterminatedQuote
  ∧ eql.Parse ("a=b" +:+ dq +:+ "c d" +:+ dq) = inl {[ "a" := "bc d" ]}
  ∧ eql.Parse "a=b'c" = inl {[ "a" := "b'c" ]}.
Proof.
  split; [|by vm_compute].
  intros i esc q k v res. unfold eql.step. simpl.
  destruct (eql.isEmpty v); reflexivity.
Qed.

(** C5 (amended).  In [stateQuote] a backslash marks the escape as pending
    and is not kept, also when an escape is already pending; with an escape
    pending, the delimiter is kept alone, and any other byte that is not a
    backslash is kept after a backslash.  With Q a double quote and B a
    backslash, the input abc=Qdef BQ ghiQ gives the value def Q ghi. *)
Theorem C5_quote_escape i r sc :
  eql.s sc = eql.stateQuote →
  (r = chBackslash →
     eql.step i r sc
     = inl (eql.Scanner eql.stateQuote true (eql.quoteStyle sc)
              (eql.tmpKey sc) (eql.tmpValue sc) (eql.result sc)))
  ∧ (r ≠ chBackslash → eql.isEscaping sc = true → r = eql.quoteStyle sc →
     eql.step i r sc
     = inl (eql.Scanner eql.stateQuote false (eql.quoteStyle sc)
              (eql.tmpKey sc) (eql.push (eql.tmpValue sc) r)
              (eql.result sc)))
  ∧ (r ≠ chBackslash → eql.isEscaping sc = true → r ≠ eql.quoteStyle sc →
     eql.step i r sc
     = inl (eql.Scanner eql.stateQuote false (eql.quoteStyle sc)
              (eql.tmpKey sc)
              (eql.push (eql.push (eql.tmpValue sc) chBackslash) r)
              (eql.result sc)))
  ∧ eql.Parse ("abc=" +:+ dq +:+ "def " +:+ bs +:+ dq +:+ " ghi" +:+ dq)
    = inl {[ "abc" := "def " +:+ dq +:+ " ghi" ]}.
Proof.
  intros Hs. unfold eql.step. rewrite Hs.
  split; [|split; [|split]].
  - intros ->. reflexivity.
  - intros Hr Hesc Hq.
    destruct (Ascii.eqb_spec r chBackslash) as [|_]; [done|].
    rewrite Hesc, <- Hq, Ascii.eqb_refl. reflexivity.
  - intros Hr Hesc Hq.
    destruct (Ascii.eqb_spec r chBackslash) as [|_]; [done|].
    rewrite Hesc.
    destruct (Ascii.eqb_spec r (eql.quoteStyle sc)) as [|_]; [done|].
    reflexivity.
  - by vm_compute.
Qed.

Lemma C5_quote_escape_witness :
  let sc := eql.Scanner eql.stateQuote true chDQuote "abc" "def " ∅ in
  eql.step 10 "z"%char sc
  = inl (eql.Scanner eql.stateQuote false chDQuote "abc"
           ("def " +:+ bs +:+ "z") ∅).
Proof.
  intros sc.
  exact (proj1 (proj2 (proj2 (C5_quote_escape 10 "z"%char sc eq_refl)))
           ltac:(discriminate) eq_refl ltac:(discriminate)).
Defined.

(** C5, as stated, fails on an escaped backslash: with an escape pending
    and the delimiter [dquote], the byte [\] is another escaped character,
    but the backslash and the byte are not both kept: nothing is, and
    with Q a double quote and B a backslash the input a=QxBByQ gives the
    value xBy. *)
Lemma C5_escaped_backslash_counterexample :
  let sc := eql.Scanner eql.stateQuote true chDQuote "a" "x" ∅ in
  chBackslash ≠ eql.quoteStyle sc
  ∧ ¬ (∃ sc', eql.step 5 chBackslash sc = inl sc'
              ∧ eql.tmpValue sc'
                = eql.push (eql.push (eql.tmpValue sc) chBackslash)
                           chBackslash)
  ∧ eql.Parse ("a=" +:+ dq +:+ "x" +:+ bs +:+ bs +:+ "y" +:+ dq)
    = inl {[ "a" := "x" +:+ bs +:+ "y" ]}.
Proof.
  intros sc. split; [discriminate|]. split; [|by vm_compute].
  intros (sc' & Hstep & Hv). vm_compute in Hstep. injection Hstep as <-.
  vm_compute in Hv. discriminate.
Qed.

(** C7 (amended).  [Parse] fails in two ways, and in no other:
    with the error "unexpected = at position p" exactly when the scan meets [=] in
    the state [stateKey] with an empty pending key, [p] being the offset in
    bytes of that [=] plus one; with "unterminated quoted string" exactly
    when the scan reaches the end of the input in the state [stateQuote]. *)
Theorem C7_parse_errors (str : string) (e : eql.error) :
  eql.Parse str = inr e ↔
  (∃ pre post sc,
      str = pre +:+ String chEq post
      ∧ eql.scan 0 pre eql.initial = inl sc
      ∧ eql.s sc = eql.stateKey ∧ eql.tmpKey sc = EmptyString
      ∧ e = eql.UnexpectedEq (String.length pre + 1))
  ∨ (∃ sc, eql.scan 0 str eql.initial = inl sc
           ∧ eql.s sc = eql.stateQuote ∧ e = eql.UnterminatedQuote).
Proof.
  unfold eql.Parse.
  destruct (eql.scan 0 str eql.initial) as [sc|e0] eqn:Hscan.
  - split.
    + destruct (eql.s sc) eqn:Hs; try done.
      intros [= <-]. right. by exists sc.
    + intros [(pre & post & sc' & Hstr & Hpre & Hs & Hk & He)
             |(sc' & [= <-] & Hs & ->)].
      * assert (eql.scan 0 str eql.initial
                = inr (eql.UnexpectedEq (0 + String.length pre + 1))) as Hf.
        { apply eql_facts.scan_error. by exists pre, post, sc'. }
        congruence.
      * by rewrite Hs.
  - split.
    + intros [= <-]. left.
      apply eql_facts.scan_error in Hscan
        as (pre & post & sc' & ? & ? & ? & ? & ->).
      by exists pre, post, sc'.
    + intros [(pre & post & sc' & Hstr & Hpre & Hs & Hk & ->)|(? & ? & _)];
        [|done].
      assert (eql.scan 0 str eql.initial
              = inr (eql.UnexpectedEq (0 + String.length pre + 1))) as Hf.
      { apply eql_facts.scan_error. by exists pre, post, sc'. }
      rewrite Hscan in Hf. by injection Hf as ->.
Qed.

(** C7, as stated, fails on a=Qb, where Q is a double quote: [Parse] fails
    there, and the scan never meets [=] with an empty pending key.  And the
    position is counted in bytes: in the input made of an accented e and
    [=1 =2], the second [=] is the fifth character and the position
    reported is 6. *)
Lemma C7_unterminated_quote_counterexample :
  let str := "a=" +:+ dq +:+ "b" in
  (eql.Parse str = inr eql.UnterminatedQuote
   ∧ ¬ (∃ pre post sc,
          str = pre +:+ String chEq post
          ∧ eql.scan 0 pre eql.initial = inl sc
          ∧ eql.s sc = eql.stateKey ∧ eql.tmpKey sc = EmptyString))
  ∧ eql.Parse (eAcute +:+ "=1 =2") = inr (eql.UnexpectedEq 6)
  ∧ utf8.RuneCountInString (eAcute +:+ "=1 =") = 5.
Proof.
  intros str. split; [|by vm_compute]. split; [by vm_compute|].
  intros (pre & post & sc & Hstr & Hpre & Hs & Hk).
  assert (eql.scan 0 str eql.initial
          = inr (eql.UnexpectedEq (0 + String.length pre + 1))) as Hf.
  { apply eql_facts.scan_error. by exists pre, post, sc. }
  vm_compute in Hf. discriminate.
Qed.

(** The two inputs of the tests of [Parse] that the specification quotes. *)
Example Parse_simple :
  eql.Parse "fix=path feat=minor bang=major"
  = inl (list_to_map [("fix", "path"); ("feat", "minor"); ("bang", "major")]).
Proof. by vm_compute. Qed.

Example Parse_invalid :
  eql.Parse " =path test = true" = inr (eql.UnexpectedEq 2).
Proof. by vm_compute. Qed.

(** ** Regular expressions: the derivative matcher decides the denotation *)

Module regexp_facts.

Lemma matches_Void s : ¬ matches Void s.
Proof. inversion 1. Qed.

Lemma matches_Eps s : matches Eps s ↔ s = EmptyString.
Proof. split; [by inversion 1|intros ->; constructor]. Qed.

Lemma matches_Class p s :
  matches (Class p) s ↔ ∃ c, s = str1 c ∧ p c = true.
Proof.
  split; [inversion 1; eauto|]. intros (c & -> & ?). by constructor.
Qed.

Lemma matches_Cat a b s :
  matches (Cat a b) s ↔
  ∃ s1 s2, s = s1 +:+ s2 ∧ matches a s1 ∧ matches b s2.
Proof.
  split; [inversion 1; eauto|]. intros (s1 & s2 & -> & ? & ?).
  by constructor.
Qed.

Lemma matches_Alt a b s : matches (Alt a b) s ↔ matches a s ∨ matches b s.
Proof.
  split; [inversion 1; eauto|].
  intros [?|?]; [by apply MAltL|by apply MAltR].
Qed.

(** A non-empty match of a star starts with a non-empty match of its
    body. *)
Lemma matches_Star_cons a c s :
  matches (Star a) (String c s) ↔
  ∃ s1 s2, s = s1 +:+ s2 ∧ matches a (String c s1) ∧ matches (Star a) s2.
Proof.
  split.
  - intros H. remember (Star a) as r eqn:Hr.
    remember (String c s) as t eqn:Ht.
    induction H as [| | | | | |a' s1 s2 H1 _ H2 IH2]; try done.
    injection Hr as ->. destruct s1 as [|c1 s1].
    + rewrite append_nil_l in Ht. by apply IH2.
    + rewrite append_cons in Ht. injection Ht as -> <-. eauto.
  - intros (s1 & s2 & -> & H1 & H2).
    change (String c (s1 +:+ s2)) with (String c s1 +:+ s2).
    by constructor.
Qed.

Lemma matches_Star_nil a : matches (Star a) EmptyString.
Proof. constructor. Qed.

Lemma nullable_matches a : nullable a = true ↔ matches a EmptyString.
Proof.
  induction a as [| |p|a IHa b IHb|a IHa b IHb|a IHa]; simpl.
  - split; [done|]. intros []%matches_Void.
  - split; [constructor|done].
  - split; [done|]. intros (c & ? & _)%matches_Class. done.
  - rewrite andb_true_iff, IHa, IHb, matches_Cat. split.
    + intros [? ?]. by exists EmptyString, EmptyString.
    + intros (s1 & s2 & Heq & ? & ?). symmetry in Heq.
      apply append_eq_nil in Heq as [-> ->]. done.
  - by rewrite orb_true_iff, IHa, IHb, matches_Alt.
  - split; [constructor|done].
Qed.

Lemma matches_cat a b s : matches (cat a b) s ↔ matches (Cat a b) s.
Proof.
  assert (∀ a', ¬ matches (Cat Void a') s) as HvoidL.
  { intros a' (? & ? & _ & []%matches_Void & _)%matches_Cat. }
  assert (∀ a', ¬ matches (Cat a' Void) s) as HvoidR.
  { intros a' (? & ? & _ & _ & []%matches_Void)%matches_Cat. }
  assert (∀ b', matches b' s ↔ matches (Cat Eps b') s) as Heps.
  { intros b'. rewrite matches_Cat. split.
    - intros H. exists EmptyString, s. split; [done|].
      split; [constructor|done].
    - by intros (s1 & s2 & -> & ->%matches_Eps & H). }
  destruct a, b; simpl; try done; try apply Heps;
    (split; [intros []%matches_Void|]);
    intros H; (by apply HvoidL in H) || (by apply HvoidR in H).
Qed.

Lemma matches_alt a b s : matches (alt a b) s ↔ matches (Alt a b) s.
Proof.
  rewrite matches_Alt.
  destruct a, b; simpl; rewrite ?matches_Alt; try done;
    split; try (intros [[]%matches_Void|?]; done);
    try (intros [?|[]%matches_Void]; done); eauto.
Qed.

Lemma deriv_matches a : ∀ c s,
  matches (deriv c a) s ↔ matches a (String c s).
Proof.
  induction a as [| |p|a IHa b IHb|a IHa b IHb|a IHa]; intros c s; simpl.
  - split; intros []%matches_Void.
  - split; [intros []%matches_Void|]. by intros [=]%matches_Eps.
  - rewrite matches_Class. destruct (p c) eqn:Hp.
    + rewrite matches_Eps. split.
      * intros ->. by exists c.
      * by intros (c' & [= -> ->] & _).
    + split; [intros []%matches_Void|].
      intros (c' & [= -> ->] & ?). congruence.
  - assert (matches (cat (deriv c a) b) s ↔
            ∃ s1 s2, s = s1 +:+ s2 ∧ matches a (String c s1)
                     ∧ matches b s2) as Hcat.
    { rewrite matches_cat, matches_Cat.
      split; intros (s1 & s2 & ? & ? & ?); exists s1, s2;
        (split; [done|]); (split; [|done]); by apply IHa. }
    assert (matches (Cat a b) (String c s) ↔
            (∃ s1 s2, s = s1 +:+ s2 ∧ matches a (String c s1)
                      ∧ matches b s2)
            ∨ (matches a EmptyString ∧ matches b (String c s))) as Hinv.
    { rewrite matches_Cat. split.
      - intros ([|c1 s1] & s2 & Heq & H1 & H2).
        + rewrite append_nil_l in Heq. subst s2. by right.
        + rewrite append_cons in Heq. injection Heq as <- ->. left. eauto.
      - intros [(s1 & s2 & -> & H1 & H2)|[H1 H2]].
        + exists (String c s1), s2. by rewrite append_cons.
        + by exists EmptyString, (String c s). }
    rewrite Hinv. destruct (nullable a) eqn:Hn.
    + rewrite matches_alt, matches_Alt, Hcat, IHb.
      apply nullable_matches in Hn. tauto.
    + rewrite Hcat. split; [tauto|]. intros [?|[Hna _]]; [done|].
      apply nullable_matches in Hna. congruence.
  - by rewrite matches_alt, !matches_Alt, IHa, IHb.
  - rewrite matches_cat, matches_Cat, matches_Star_cons.
    split; intros (s1 & s2 & ? & ? & ?); exists s1, s2;
      (split; [done|]); (split; [|done]); by apply IHa.
Qed.

Theorem matchAll_matches text : ∀ a,
  matchAll a text = true ↔ matches a text.
Proof.
  induction text as [|c rest IH]; intros a; simpl.
  - apply nullable_matches.
  - by rewrite IH, deriv_matches.
Qed.

(** *** Classes repeated *)

Lemma matches_Star_Class p s : matches (Star (Class p)) s ↔ allb p s = true.
Proof.
  induction s as [|c s IH]; simpl.
  - split; [done|constructor].
  - rewrite matches_Star_cons, andb_true_iff, <- IH. split.
    + intros (s1 & s2 & -> & (c' & [= -> ->] & ?)%matches_Class & ?).
      by rewrite append_nil_l.
    + intros [? ?]. exists EmptyString, s. repeat split; try done.
      apply matches_Class. by exists c.
Qed.

Lemma matches_Plus_Class p s :
  matches (Plus (Class p)) s ↔ s ≠ EmptyString ∧ allb p s = true.
Proof.
  unfold Plus. rewrite matches_Cat. split.
  - intros (s1 & s2 & -> & (c & -> & Hc)%matches_Class
            & H2%matches_Star_Class).
    change (str1 c +:+ s2) with (String c s2). simpl.
    by rewrite Hc, H2.
  - intros [Hne Hall]. destruct s as [|c s]; [done|].
    simpl in Hall. apply andb_true_iff in Hall as [Hc Hs].
    exists (str1 c), s. repeat split; try done.
    + apply matches_Class. by exists c.
    + by apply matches_Star_Class.
Qed.

Lemma matches_Lit c s : matches (Lit c) s ↔ s = str1 c.
Proof.
  unfold Lit. rewrite matches_Class. split.
  - by intros (c' & -> & ->%Ascii.eqb_eq).
  - intros ->. exists c. by rewrite Ascii.eqb_refl.
Qed.

End regexp_facts.

(** ** Lines of a message *)

Module strings_facts.
Import strings.

Lemma Split_nonempty s sep : Split s sep ≠ [].
Proof.
  destruct s as [|c r]; simpl; [done|].
  destruct (Ascii.eqb c sep); [done|]. by destruct (Split r sep).
Qed.

(** Joining the parts with the separator gives the text back. *)
Lemma Join_Split s sep : Join (Split s sep) (str1 sep) = s.
Proof.
  induction s as [|c r IH]; simpl; [done|].
  destruct (Ascii.eqb_spec c sep) as [->|Hne].
  - pose proof (Split_nonempty r sep) as Hn.
    destruct (Split r sep) as [|h t]; [done|].
    change (Join (EmptyString :: h :: t) (str1 sep))
      with (EmptyString +:+ str1 sep +:+ Join (h :: t) (str1 sep)).
    by rewrite IH.
  - pose proof (Split_nonempty r sep) as Hn.
    destruct (Split r sep) as [|h t]; [done|].
    destruct t as [|h' t]; simpl in *; [by rewrite IH|].
    rewrite append_cons. by rewrite IH.
Qed.

Lemma HasPrefix_app sub b : HasPrefix (sub +:+ b) sub = true.
Proof.
  induction sub as [|c sub IH].
  - rewrite append_nil_l. by destruct b.
  - rewrite append_cons. simpl. by rewrite Ascii.eqb_refl, IH.
Qed.

Lemma HasPrefix_inv s sub :
  HasPrefix s sub = true → ∃ b, s = sub +:+ b.
Proof.
  revert s. induction sub as [|c sub IH]; intros s; simpl.
  - intros _. by exists s.
  - destruct s as [|c' s]; [done|].
    intros [->%Ascii.eqb_eq [b ->]%IH]%andb_true_iff. by exists b.
Qed.

Lemma Contains_unfold s sub :
  Contains s sub
  = HasPrefix s sub
    || match s with
       | EmptyString => false
       | String _ r => Contains r sub
       end.
Proof. by destruct s. Qed.

(** [Contains] is the occurrence of the substring somewhere. *)
Lemma Contains_iff s sub :
  Contains s sub = true ↔ ∃ a b, s = a +:+ sub +:+ b.
Proof.
  split.
  - induction s as [|c s IH]; rewrite Contains_unfold.
    + rewrite orb_false_r. intros [b ->]%HasPrefix_inv.
      by exists EmptyString, b.
    + intros [[b Hb]%HasPrefix_inv|(a & b & ->)%IH]%orb_true_iff.
      * by exists EmptyString, b.
      * by exists (String c a), b.
  - intros (a & b & ->). induction a as [|c a IH].
    + rewrite append_nil_l, Contains_unfold. by rewrite HasPrefix_app.
    + rewrite append_cons. simpl. rewrite IH. apply orb_true_r.
Qed.

Lemma Contains_char s c :
  Contains s (str1 c) = negb (allb (λ x, negb (Ascii.eqb x c)) s).
Proof.
  induction s as [|x s IH]; simpl; [done|].
  rewrite IH. destruct (Ascii.eqb x c); simpl; [|done].
  by destruct s.
Qed.

(** The first part of [Split] has no separator. *)
Lemma hd_Split_no_sep s sep :
  Contains (hd EmptyString (Split s sep)) (str1 sep) = false.
Proof.
  induction s as [|c r IH]; simpl; [done|].
  destruct (Ascii.eqb c sep) eqn:Hc; simpl; [done|].
  pose proof (Split_nonempty r sep) as Hn.
  destruct (Split r sep) as [|h t]; [done|]. simpl in *.
  by rewrite Hc, andb_false_l, IH.
Qed.

(** A text with a separator is its first part, the separator and the
    other parts joined. *)
Lemma Split_first_rest s sep :
  Contains s (str1 sep) = true →
  s = hd EmptyString (Split s sep) +:+ str1 sep
        +:+ Join (tl (Split s sep)) (str1 sep).
Proof.
  intros Hc. pose proof (Join_Split s sep) as HJ.
  pose proof (hd_Split_no_sep s sep) as Hh.
  pose proof (Split_nonempty s sep) as Hn.
  destruct (Split s sep) as [|h [|h' t]]; [done| |].
  - simpl in *. congruence.
  - simpl in *. congruence.
Qed.

End strings_facts.

(** ** The two patterns of [ParseCommit] *)

Lemma span_spec p text :
  ∀ a b, span p text = (a, b) →
    text = a +:+ b ∧ allb p a = true
    ∧ match b with EmptyString => True | String c _ => p c = false end.
Proof.
  induction text as [|c r IH]; simpl; intros a b.
  - by intros [= <- <-].
  - destruct (p c) eqn:Hp.
    + destruct (span p r) as [a' b'] eqn:Hs. intros [= <- <-].
      destruct (IH a' b' eq_refl) as (-> & Ha & Hb).
      rewrite append_cons. simpl. by rewrite Hp, Ha.
    + intros [= <- <-]. by rewrite Hp.
Qed.

Lemma span_app p a b :
  allb p a = true →
  match b with EmptyString => True | String c _ => p c = false end →
  span p (a +:+ b) = (a, b).
Proof.
  intros Ha Hb. induction a as [|c a IH].
  - rewrite append_nil_l. destruct b as [|c b]; simpl; [done|]. by rewrite Hb.
  - simpl in Ha. apply andb_true_iff in Ha as [Hc Ha].
    rewrite append_cons. simpl. by rewrite Hc, (IH Ha).
Qed.

Lemma span_all p a : allb p a = true → span p a = (a, EmptyString).
Proof.
  intros Ha. rewrite <- (append_nil_r a) at 1. by apply span_app.
Qed.

(** The header pattern matches exactly the texts of the shape
    [kind], optional [(scope)], optional [!], [: ], [change]. *)
Lemma conventional_matches msg :
  MatchString conventionalRegexp msg = true ↔
  ∃ kind scope bang change, headerShape msg kind scope bang change.
Proof.
  unfold conventionalRegexp, MatchString.
  rewrite regexp_facts.matchAll_matches.
  unfold Group, Opt, NoneOf. split.
  - intros (k & ? & -> & Hk%regexp_facts.matches_Plus_Class
            & (o & ? & -> & Ho
            & (b & ? & -> & Hb
            & (? & ? & -> & ->%regexp_facts.matches_Lit
            & (? & d & -> & ->%regexp_facts.matches_Lit
            & Hd%regexp_facts.matches_Plus_Class
              )%regexp_facts.matches_Cat
              )%regexp_facts.matches_Cat
              )%regexp_facts.matches_Cat
              )%regexp_facts.matches_Cat)%regexp_facts.matches_Cat.
    destruct Hk as [Hk1 Hk2], Hd as [Hd1 Hd2].
    assert (∃ scope, o = scopeText scope
                     ∧ allb (noneOf [chRParen]) scope = true)
      as (scope & -> & Hsc).
    { apply regexp_facts.matches_Alt in Ho as [Ho| ->%regexp_facts.matches_Eps].
      - apply regexp_facts.matches_Cat in Ho
          as (? & ? & -> & ->%regexp_facts.matches_Lit & Ho).
        apply regexp_facts.matches_Cat in Ho
          as (sc & ? & -> & [Hs1 Hs2]%regexp_facts.matches_Plus_Class
              & ->%regexp_facts.matches_Lit).
        exists sc. split; [|done]. unfold scopeText.
        destruct sc; [done|]. reflexivity.
      - by exists EmptyString. }
    assert (b = EmptyString ∨ b = str1 chBang) as Hbang.
    { apply regexp_facts.matches_Alt in Hb
        as [->%regexp_facts.matches_Lit| ->%regexp_facts.matches_Eps]; auto. }
    exists k, scope, b, d. repeat split; done.
  - intros (k & scope & b & d & -> & Hk1 & Hk2 & Hsc & Hb & Hd1 & Hd2).
    apply regexp_facts.matches_Cat. exists k, (scopeText scope +:+ b +:+ ": " +:+ d).
    split; [done|]. split; [by apply regexp_facts.matches_Plus_Class|].
    apply regexp_facts.matches_Cat. exists (scopeText scope), (b +:+ ": " +:+ d).
    split; [done|]. split.
    { apply regexp_facts.matches_Alt. unfold scopeText.
      destruct (eql.isEmpty scope) eqn:He.
      - right. constructor.
      - left. apply regexp_facts.matches_Cat.
        exists (str1 chLParen), (scope +:+ str1 chRParen).
        split; [done|]. split; [by apply regexp_facts.matches_Lit|].
        apply regexp_facts.matches_Cat. exists scope, (str1 chRParen).
        split; [done|]. split; [|by apply regexp_facts.matches_Lit].
        apply regexp_facts.matches_Plus_Class. split; [|done].
        by apply isEmpty_false. }
    apply regexp_facts.matches_Cat. exists b, (": " +:+ d).
    split; [done|]. split.
    { apply regexp_facts.matches_Alt.
      destruct Hb as [-> | ->]; [right; constructor|left].
      by apply regexp_facts.matches_Lit. }
    apply regexp_facts.matches_Cat. exists (str1 chColon), (str1 chSpace +:+ d).
    split; [done|]. split; [by apply regexp_facts.matches_Lit|].
    apply regexp_facts.matches_Cat. exists (str1 chSpace), d.
    split; [done|]. split; [by apply regexp_facts.matches_Lit|].
    by apply regexp_facts.matches_Plus_Class.
Qed.

(** [FindStringSubmatch_conventional] on a text that starts like a header:
    everything is decided by the part [tail] that follows [: ]. *)
Lemma FindStringSubmatch_prefix kind scope bang tail :
  kind ≠ EmptyString →
  allb (noneOf [chLParen; chColon; chBang]) kind = true →
  allb (noneOf [chRParen]) scope = true →
  bang = EmptyString ∨ bang = str1 chBang →
  FindStringSubmatch_conventional
    (kind +:+ scopeText scope +:+ bang +:+ ": " +:+ tail)
  = let '(line, after) := span (noneOf [chNL]) tail in
    if negb (eql.isEmpty line) && eql.isEmpty after
    then Some (kind, scope, bang, tail) else None.
Proof.
  intros Hk1 Hk2 Hsc Hb. unfold FindStringSubmatch_conventional.
  assert (∃ c r, scopeText scope +:+ bang +:+ ": " +:+ tail = String c r
                 ∧ noneOf [chLParen; chColon; chBang] c = false)
    as (c0 & r0 & Hrest & Hc0).
  { unfold scopeText. destruct (eql.isEmpty scope).
    - destruct Hb as [-> | ->]; eexists _, _; split; by try reflexivity.
    - eexists _, _. split; by try reflexivity. }
  rewrite (span_app _ kind (scopeText scope +:+ bang +:+ ": " +:+ tail))
    by (by rewrite ?Hrest).
  apply isEmpty_false in Hk1. rewrite Hk1. clear c0 r0 Hrest Hc0.
  unfold scopeText. destruct (eql.isEmpty scope) eqn:Hse.
  - rewrite append_nil_l.
    destruct Hb as [-> | ->].
    + rewrite append_nil_l.
      change (": " +:+ tail) with (String chColon (String chSpace tail)).
      cbv iota beta. simpl Ascii.eqb. cbv iota beta.
      apply isEmpty_true in Hse as ->. reflexivity.
    + change (str1 chBang +:+ ": " +:+ tail)
        with (String chBang (String chColon (String chSpace tail))).
      cbv iota beta. simpl Ascii.eqb. cbv iota beta.
      apply isEmpty_true in Hse as ->. reflexivity.
  - rewrite !append_assoc.
    change (str1 chLParen +:+ scope +:+ str1 chRParen +:+ bang +:+ ": " +:+ tail)
      with (String chLParen
              (scope +:+ String chRParen (bang +:+ ": " +:+ tail))).
    cbv iota beta. simpl Ascii.eqb. cbv iota beta.
    rewrite (span_app _ scope (String chRParen (bang +:+ ": " +:+ tail)))
      by done.
    cbv iota beta. simpl Ascii.eqb. rewrite Hse. simpl negb. cbv iota beta.
    destruct Hb as [-> | ->].
    + rewrite append_nil_l.
      change (": " +:+ tail) with (String chColon (String chSpace tail)).
      reflexivity.
    + change (str1 chBang +:+ ": " +:+ tail)
        with (String chBang (String chColon (String chSpace tail))).
      reflexivity.
Qed.

(** The groups found are those of the match: a text of the header shape
    gives its own parts. *)
Lemma FindStringSubmatch_shape msg kind scope bang change :
  headerShape msg kind scope bang change →
  FindStringSubmatch_conventional msg = Some (kind, scope, bang, change).
Proof.
  intros (-> & Hk1 & Hk2 & Hsc & Hb & Hd1 & Hd2).
  rewrite FindStringSubmatch_prefix by done.
  rewrite span_all by done. apply isEmpty_false in Hd1. by rewrite Hd1.
Qed.

(** A text that the header pattern matches is no longer matched once a line
    feed and more text follow it. *)
Lemma conventional_line_feed header rest :
  MatchString conventionalRegexp header = true →
  MatchString conventionalRegexp (header +:+ nl +:+ rest) = false.
Proof.
  intros (k & sc & b & d & -> & Hk1 & Hk2 & Hsc & Hb & Hd1 & Hd2)
         %conventional_matches.
  apply not_true_is_false.
  intros (k' & sc' & b' & d' & Hshape)%conventional_matches.
  apply FindStringSubmatch_shape in Hshape.
  rewrite !append_assoc in Hshape.
  change ((": " +:+ d) +:+ nl +:+ rest) with (": " +:+ d +:+ nl +:+ rest)
    in Hshape.
  rewrite FindStringSubmatch_prefix in Hshape by done.
  rewrite (span_app _ d (nl +:+ rest)) in Hshape by done.
  simpl in Hshape. by rewrite andb_false_r in Hshape.
Qed.

(** Conversely, the groups returned are parts of a text of the header
    shape. *)
Lemma FindStringSubmatch_inv msg kind scope bang change :
  FindStringSubmatch_conventional msg = Some (kind, scope, bang, change) →
  headerShape msg kind scope bang change.
Proof.
  unfold FindStringSubmatch_conventional.
  destruct (span (noneOf [chLParen; chColon; chBang]) msg)
    as [k rest] eqn:Hs1.
  apply span_spec in Hs1 as (-> & Hk & _).
  destruct (eql.isEmpty k) eqn:Hke; [done|]. apply isEmpty_false in Hke.
  set (afterScope := match rest with EmptyString => _ | String _ _ => _ end).
  assert (∀ sc r, afterScope = Some (sc, r) →
            rest = scopeText sc +:+ r ∧ allb (noneOf [chRParen]) sc = true)
    as Hafter.
  { subst afterScope. intros sc r. destruct rest as [|c inner].
    - by intros [= <- <-].
    - destruct (Ascii.eqb_spec c chLParen) as [->|_].
      + destruct (span (noneOf [chRParen]) inner) as [sc' closing] eqn:Hs2.
        apply span_spec in Hs2 as (-> & Hsc & _).
        destruct closing as [|c' after]; [done|].
        destruct (Ascii.eqb_spec c' chRParen) as [->|_]; [|done].
        destruct (eql.isEmpty sc') eqn:Hse; [done|].
        intros [= <- <-]. split; [|done]. unfold scopeText.
        rewrite Hse, !append_assoc. reflexivity.
      + by intros [= <- <-]. }
  destruct afterScope as [[sc r]|]; [|done].
  destruct (Hafter sc r eq_refl) as (-> & Hsc). clear Hafter.
  set (bangRest := match r with EmptyString => _ | String _ _ => _ end).
  assert (r = bangRest.1 +:+ bangRest.2
          ∧ (bangRest.1 = EmptyString ∨ bangRest.1 = str1 chBang))
    as [Hr Hb].
  { subst bangRest. destruct r as [|c after]; [by auto|].
    destruct (Ascii.eqb_spec c chBang) as [->|_]; simpl; auto. }
  destruct bangRest as [b r']. simpl in Hr, Hb. subst r.
  destruct r' as [|c1 [|c2 d]]; try done.
  destruct (Ascii.eqb_spec c1 chColon) as [->|_]; [|done].
  destruct (Ascii.eqb_spec c2 chSpace) as [->|_]; [|done].
  simpl andb. cbv iota.
  destruct (span (noneOf [chNL]) d) as [line after] eqn:Hs3.
  apply span_spec in Hs3 as (-> & Hd & _).
  destruct (eql.isEmpty line) eqn:Hle; [done|].
  destruct (eql.isEmpty after) eqn:Hae; [|done].
  apply isEmpty_true in Hae as ->. apply isEmpty_false in Hle.
  rewrite append_nil_r. intros [= <- <- <- <-].
  repeat split; done.
Qed.

(** [MatchString] and [FindStringSubmatch] of the header pattern agree:
    the second finds groups exactly when the first accepts. *)
Lemma conventional_submatch msg :
  MatchString conventionalRegexp msg = true ↔
  is_Some (FindStringSubmatch_conventional msg).
Proof.
  rewrite conventional_matches. split.
  - intros (k & sc & b & d & H%FindStringSubmatch_shape). by rewrite H.
  - intros [[[[k sc] b] d] H%FindStringSubmatch_inv]. eauto.
Qed.

(** The multi-line pattern needs two line feeds in a row. *)
Lemma multiLine_blank_line msg :
  MatchString multiLineCommit msg = true →
  strings.Contains msg (nl +:+ nl) = true.
Proof.
  unfold multiLineCommit, MatchString.
  rewrite regexp_facts.matchAll_matches.
  unfold Group, AtLeast2.
  intros (pre & ? & -> & _
          & (? & post & -> & Hm & _)%regexp_facts.matches_Cat
         )%regexp_facts.matches_Cat.
  apply regexp_facts.matches_Cat in Hm as (x & ? & -> & _ & Hm).
  apply regexp_facts.matches_Cat in Hm as (? & y & -> & Hm & _).
  apply regexp_facts.matches_Cat in Hm
    as (? & ? & -> & ->%regexp_facts.matches_Lit & Hm).
  apply regexp_facts.matches_Cat in Hm
    as (? & z & -> & ->%regexp_facts.matches_Lit & _).
  apply strings_facts.Contains_iff.
  exists (pre +:+ x), (z +:+ y +:+ post).
  rewrite !append_assoc. reflexivity.
Qed.

Lemma Contains_blank_line msg :
  strings.Contains msg (nl +:+ nl) = true → strings.Contains msg nl = true.
Proof.
  intros (a & b & ->)%strings_facts.Contains_iff.
  apply strings_facts.Contains_iff. exists a, (nl +:+ b).
  by rewrite !append_assoc.
Qed.

(** The first line of a message is not a multi-line message. *)
Lemma first_line_not_multiLine msg :
  MatchString multiLineCommit (hd EmptyString (strings.Split msg chNL))
  = false.
Proof.
  apply not_true_is_false.
  intros H%multiLine_blank_line%Contains_blank_line.
  pose proof (strings_facts.hd_Split_no_sep msg chNL) as Hh.
  unfold nl in H. congruence.
Qed.

(** One level of [ParseCommitFuel]. *)
Lemma ParseCommitFuel_S fuel msg :
  ParseCommitFuel (S fuel) msg
  = if MatchString multiLineCommit msg then
      let lines := strings.Split msg chNL in
      match ParseCommitFuel fuel (hd EmptyString lines) with
      | None => None
      | Some None => Some None
      | Some (Some res) =>
          let res := fold_left (λ res l, if isBreakingFooter l
                                         then setBang res else res)
                               (tl lines) res in
          Some (Some (setBody res (strings.Join (tl lines) nl)))
      end
    else Some (parseHeader msg).
Proof.
  cbn [ParseCommitFuel]. destruct (MatchString multiLineCommit msg); [done|].
  unfold parseHeader.
  destruct (MatchString conventionalRegexp msg); [|done].
  by destruct (FindStringSubmatch_conventional msg) as [[[[? ?] ?] ?]|].
Qed.

Lemma ParseCommitFuel_single fuel msg :
  MatchString multiLineCommit msg = false →
  ParseCommitFuel (S fuel) msg = Some (parseHeader msg).
Proof. intros H. by rewrite ParseCommitFuel_S, H. Qed.

(** Two levels of calls are always enough, and more change nothing:
    [ParseCommit] returns on every message. *)
Theorem ParseCommit_fuel fuel msg :
  ParseCommitFuel (S (S fuel)) msg = Some (ParseCommit msg).
Proof.
  unfold ParseCommit.
  rewrite (ParseCommitFuel_S (S fuel)), (ParseCommitFuel_S 1).
  destruct (MatchString multiLineCommit msg) eqn:Hm; [|done].
  cbv zeta.
  rewrite !ParseCommitFuel_single by apply first_line_not_multiLine.
  by destruct (parseHeader _).
Qed.

(** [ParseCommit], unfolded once: the two paths of the source. *)
Lemma ParseCommit_unfold msg :
  ParseCommit msg
  = if MatchString multiLineCommit msg then
      let lines := strings.Split msg chNL in
      match ParseCommit (hd EmptyString lines) with
      | None => None
      | Some res =>
          let res := fold_left (λ res l, if isBreakingFooter l
                                         then setBang res else res)
                               (tl lines) res in
          Some (setBody res (strings.Join (tl lines) nl))
      end
    else parseHeader msg.
Proof.
  unfold ParseCommit at 1. rewrite ParseCommitFuel_S.
  destruct (MatchString multiLineCommit msg) eqn:Hm; [|done].
  cbv zeta.
  rewrite ParseCommitFuel_single by apply first_line_not_multiLine.
  unfold ParseCommit.
  rewrite ParseCommitFuel_single by apply first_line_not_multiLine.
  by destruct (parseHeader _).
Qed.

(** The loop over the lines after the first only ever sets [Bang]. *)
Lemma footers_fold (rest : list string) : ∀ res,
  let res' := fold_left (λ res l, if isBreakingFooter l then setBang res
                                  else res) rest res in
  Bang res' = Bang res || existsb isBreakingFooter rest
  ∧ Type_ res' = Type_ res ∧ Scope res' = Scope res
  ∧ Description res' = Description res.
Proof.
  induction rest as [|l rest IH]; intros res; simpl.
  - by rewrite orb_false_r.
  - destruct (IH (if isBreakingFooter l then setBang res else res))
      as (HB & HT & HS & HD).
    rewrite HB, HT, HS, HD. destruct (isBreakingFooter l); simpl.
    + by rewrite orb_true_r.
    + done.
Qed.

(** C6.  For a multi-line message whose first line parses, the result is
    the commit of the first line where [Bang] is also set when some later
    line starts, whatever the case of its letters, with
    "breaking change:", and where [Body] is the later lines joined by line
    feeds: the message is its first line, a line feed and that body. *)
Theorem C6_breaking_change_footer (msg : string) (header : ConventionalCommit) :
  MatchString multiLineCommit msg = true →
  ParseCommit (hd EmptyString (strings.Split msg chNL)) = Some header →
  ∃ res,
    ParseCommit msg = Some res
    ∧ Bang res
      = Bang header
        || existsb (λ l, strings.HasPrefix (strings.ToLower l)
                                           "breaking change:")
                   (tl (strings.Split msg chNL))
    ∧ Body res = strings.Join (tl (strings.Split msg chNL)) nl
    ∧ msg = hd EmptyString (strings.Split msg chNL) +:+ nl +:+ Body res
    ∧ Type_ res = Type_ header ∧ Scope res = Scope header
    ∧ Description res = Description header.
Proof.
  intros Hm Hh. rewrite ParseCommit_unfold, Hm. cbv zeta. rewrite Hh.
  eexists. split; [reflexivity|].
  destruct (footers_fold (tl (strings.Split msg chNL)) header)
    as (HB & HT & HS & HD).
  simpl. repeat split; try done.
  apply strings_facts.Split_first_rest.
  by apply Contains_blank_line, multiLine_blank_line.
Qed.

Lemma C6_breaking_change_footer_witness :
  ∃ res,
    ParseCommit ("feat: x" +:+ nl +:+ nl +:+ "BREAKING CHANGE: y") = Some res
    ∧ Bang res = true
    ∧ Body res = nl +:+ "BREAKING CHANGE: y".
Proof.
  destruct (C6_breaking_change_footer
              ("feat: x" +:+ nl +:+ nl +:+ "BREAKING CHANGE: y")
              {| Type_ := "feat"; SemVerChange := SemVerNone;
                 Scope := EmptyString; Description := "x";
                 Body := EmptyString; Bang := false |}
              eq_refl eq_refl)
    as (res & Hres & HB & Hbody & _).
  exists res. split; [exact Hres|]. split.
  - rewrite HB. reflexivity.
  - rewrite Hbody. reflexivity.
Defined.

(** C10 (amended).  A message that goes on after a line feed, and whose
    first line the header pattern matches, is not conventional when it has
    no two line feeds in a row: the header pattern rejects the whole of
    such a message, and the multi-line pattern matches only messages with
    two line feeds in a row. *)
Theorem C10_single_line_feed (msg : string) :
  MatchString conventionalRegexp (hd EmptyString (strings.Split msg chNL))
  = true →
  strings.Contains msg nl = true →
  (strings.Contains msg (nl +:+ nl) = false → ParseCommit msg = None)
  ∧ MatchString conventionalRegexp msg = false
  ∧ (∀ m, MatchString multiLineCommit m = true →
          strings.Contains m (nl +:+ nl) = true).
Proof.
  intros Hh Hnl.
  assert (MatchString conventionalRegexp msg = false) as Hconv.
  { rewrite (strings_facts.Split_first_rest msg chNL Hnl).
    by apply conventional_line_feed. }
  split; [|split; [done|apply multiLine_blank_line]].
  intros Hblank. rewrite ParseCommit_unfold.
  destruct (MatchString multiLineCommit msg) eqn:Hm.
  - apply multiLine_blank_line in Hm. congruence.
  - unfold parseHeader. by rewrite Hconv.
Qed.

Lemma C10_single_line_feed_witness :
  ParseCommit ("feat: x" +:+ nl +:+ "more") = None.
Proof.
  exact (proj1 (C10_single_line_feed ("feat: x" +:+ nl +:+ "more")
                  eq_refl eq_refl) eq_refl).
Defined.

(** C10, as stated, fails on a message with a line feed inside the type:
    a negated class matches a line feed, so the header pattern accepts the
    two lines [fix] and [up: thing], and the commit has the type made of
    [fix], a line feed and [up]. *)
Lemma C10_line_feed_in_type_counterexample :
  let msg := "fix" +:+ nl +:+ "up: thing" in
  strings.Contains msg nl = true
  ∧ MatchString conventionalRegexp msg = true
  ∧ ParseCommit msg
    = Some {| Type_ := "fix" +:+ nl +:+ "up"; SemVerChange := SemVerNone;
              Scope := EmptyString; Description := "thing";
              Body := EmptyString; Bang := false |}.
Proof. by vm_compute. Qed.

(** The inputs of [ParseCommit] that the specification quotes. *)
Example ParseCommit_scope :
  ParseCommit "feat(api): add endpoint"
  = Some {| Type_ := "feat"; SemVerChange := SemVerNone; Scope := "api";
            Description := "add endpoint"; Body := EmptyString;
            Bang := false |}.
Proof. by vm_compute. Qed.

Example ParseCommit_bang :
  Bang <$> ParseCommit "fix!: urgent" = Some true.
Proof. by vm_compute. Qed.

(** ** Traversals of a map *)

Lemma perm2 {A} (a b : A) (l : list A) :
  l ≡ₚ [a; b] → l = [a; b] ∨ l = [b; a].
Proof. intros H. symmetry in H. by apply Permutation_length_2_inv in H. Qed.

Lemma perm3 {A} (a b c : A) (l : list A) :
  l ≡ₚ [a; b; c] →
  l = [a; b; c] ∨ l = [a; c; b] ∨ l = [b; a; c]
  ∨ l = [b; c; a] ∨ l = [c; a; b] ∨ l = [c; b; a].
Proof.
  intros H. pose proof (Permutation_length H) as Hlen.
  destruct l as [|x [|y [|z [|? ?]]]]; try done.
  assert (x ∈ [a; b; c]) as Hx by (rewrite <- H; set_solver).
  apply elem_of_cons in Hx as [->|Hx]; [|apply elem_of_cons in Hx as [->|Hx]].
  - apply Permutation_cons_inv in H. apply perm2 in H as [[= -> ->]|[= -> ->]];
      auto.
  - assert ([b; y; z] ≡ₚ [b; a; c]) as H' by (rewrite H; apply perm_swap).
    apply Permutation_cons_inv in H'.
    apply perm2 in H' as [[= -> ->]|[= -> ->]]; auto 10.
  - apply list_elem_of_singleton in Hx as ->.
    assert ([c; y; z] ≡ₚ [c; a; b]) as H'.
    { rewrite H. change [a; b; c] with ([a; b] ++ [c]).
      by rewrite Permutation_app_comm. }
    apply Permutation_cons_inv in H'.
    apply perm2 in H' as [[= -> ->]|[= -> ->]]; auto 10.
Qed.

(** ** The bump determiner *)

(** *** What the loops keep *)

Lemma eqK_eq (a b : SemVerComponent) : eqK a b = true ↔ a = b.
Proof. destruct a, b; vm_compute; split; congruence. Qed.

Lemma eqK_refl (a : SemVerComponent) : eqK a a = true.
Proof. by apply eqK_eq. Qed.

Lemma gtK_lt (a b : SemVerComponent) : gtK a b = true ↔ rank b < rank a.
Proof. unfold gtK. apply Nat.ltb_lt. Qed.

Lemma rank_inj (a b : SemVerComponent) : rank a = rank b → a = b.
Proof. destruct a, b; simpl; congruence. Qed.

Lemma fold_left_pointwise {A B} (f g : A → B → A) (l : list B) :
  (∀ a x, f a x = g a x) → ∀ a, fold_left f l a = fold_left g l a.
Proof.
  intros Hfg. induction l as [|x l IH]; intros a; simpl; [done|].
  by rewrite Hfg, IH.
Qed.

Lemma groupRules_fold (rulesRange : list (string * string)) :
  groupRules rulesRange = fold_left groupStep rulesRange (SemVerNone, λ _, None).
Proof.
  unfold groupRules. apply fold_left_pointwise. by intros [b c] [n k].
Qed.

(** The component of a severity after the loop over the rules: the names
    it had, then the names of the rules of that severity. *)
Lemma groupStep_components (k : SemVerComponent)
    (l : list (string * string)) : ∀ bang components,
  (fold_left groupStep l (bang, components)).2 k
  = match ruleNames k l with
    | [] => components k
    | names =>
        Some (match components k with Some l0 => l0 | None => [] end
              ++ names)
    end.
Proof.
  unfold ruleNames.
  induction l as [|[n kd] l IH]; intros bang components; [done|].
  cbn [fold_left groupStep List.filter]. unfold isRuleOf at 1.
  cbn [fst snd].
  destruct (String.eqb n "bang") eqn:Hn; cbn [negb andb].
  - apply IH.
  - rewrite IH. unfold appendComponent.
    destruct (eqK (semverFromString kd) k) eqn:Hk.
    + apply eqK_eq in Hk as <-. rewrite eqK_refl. cbn [fmap list_fmap fst].
      destruct ((List.filter (isRuleOf (semverFromString kd)) l).*1);
        [done|]. by rewrite <- app_assoc.
    + assert (eqK k (semverFromString kd) = false) as ->.
      { apply not_true_is_false. intros ->%eqK_eq.
        by rewrite eqK_refl in Hk. }
      done.
Qed.

Lemma groupRules_components (k : SemVerComponent)
    (rulesRange : list (string * string)) :
  (groupRules rulesRange).2 k
  = match ruleNames k rulesRange with
    | [] => None
    | names => Some names
    end.
Proof. rewrite groupRules_fold, groupStep_components. done. Qed.

Lemma groupStep_bang_absent (l : list (string * string)) :
  ∀ bang components,
    "bang" ∉ l.*1 → (fold_left groupStep l (bang, components)).1 = bang.
Proof.
  induction l as [|[n kd] l IH]; intros bang components; [done|].
  cbn [fold_left groupStep fmap list_fmap fst].
  intros [Hn Hl]%not_elem_of_cons.
  destruct (String.eqb_spec n "bang") as [->|_]; [done|]. by apply IH.
Qed.

Lemma groupStep_bang_present (l : list (string * string)) (kind : string) :
  ∀ bang components,
    NoDup l.*1 → ("bang", kind) ∈ l →
    (fold_left groupStep l (bang, components)).1 = semverFromString kind.
Proof.
  induction l as [|[n kd] l IH]; intros bang components;
    [by intros _ []%elem_of_nil|].
  cbn [fold_left groupStep fmap list_fmap fst].
  intros [Hn Hnd]%NoDup_cons [[= <- <-]|Hin]%elem_of_cons.
  - cbn [String.eqb]. change (String.eqb "bang" "bang") with true.
    cbv iota. by apply groupStep_bang_absent.
  - destruct (String.eqb_spec n "bang") as [->|_].
    + destruct Hn. apply list_elem_of_fmap. by exists ("bang", kind).
    + by apply IH.
Qed.

(** The labelled loop never lowers the aggregate. *)
Lemma compLoop_ge components prefix (vs : list SemVerComponent) :
  ∀ toBump, rank toBump ≤ rank (compLoop components prefix toBump vs).
Proof.
  induction vs as [|v vs IH]; intros toBump; simpl; [done|].
  destruct (components v) as [prefixes|]; [|apply IH].
  destruct (gtK toBump v) eqn:Hgt; [apply IH|].
  destruct (existsb _ prefixes); [|apply IH].
  apply not_true_iff_false in Hgt. rewrite gtK_lt in Hgt. lia.
Qed.

(** When no name of a component is the type of the commit, the labelled
    loop leaves the aggregate as it is. *)
Lemma compLoop_no_match components prefix (vs : list SemVerComponent) :
  (∀ v l, components v = Some l →
     existsb (λ pr, String.eqb (strings.ToLower pr) prefix) l = false) →
  ∀ toBump, compLoop components prefix toBump vs = toBump.
Proof.
  intros Hno. induction vs as [|v vs IH]; intros toBump; simpl; [done|].
  destruct (components v) as [prefixes|] eqn:Hv; [|apply IH].
  destruct (gtK toBump v); [apply IH|].
  rewrite (Hno v prefixes Hv). apply IH.
Qed.

(** When a component that the loop can still choose has the type of the
    commit among its names, the loop chooses one of the components. *)
Lemma compLoop_match components prefix (vs : list SemVerComponent)
    (k : SemVerComponent) (l : list string) :
  components k = Some l →
  existsb (λ pr, String.eqb (strings.ToLower pr) prefix) l = true →
  ∀ toBump, k ∈ vs → rank toBump ≤ rank k →
    compLoop components prefix toBump vs ∈ vs.
Proof.
  intros Hk Hex. induction vs as [|v vs IH]; intros toBump;
    [by intros []%elem_of_nil|].
  intros Hin Hle. simpl.
  assert (k ≠ v → compLoop components prefix toBump vs ∈ v :: vs) as Hrest.
  { intros Hne. apply elem_of_cons in Hin as [?|Hin]; [done|].
    right. by apply IH. }
  destruct (components v) as [prefixes|] eqn:Hv.
  - destruct (gtK toBump v) eqn:Hgt.
    + apply Hrest. intros <-. apply gtK_lt in Hgt. lia.
    + destruct (existsb _ prefixes) eqn:Hex'; [by left|].
      apply Hrest. intros <-. congruence.
  - apply Hrest. intros <-. congruence.
Qed.

Lemma bumpStep_ge hasBang bang components toBump r :
  rank toBump ≤ rank (bumpStep hasBang bang components toBump r).
Proof.
  unfold bumpStep.
  destruct (Bang r && hasBang && gtK bang toBump) eqn:Hb.
  - apply andb_true_iff in Hb as [_ Hgt%gtK_lt]. lia.
  - apply compLoop_ge.
Qed.

Lemma bumpLoop_ge hasBang bang components (commits : Commits) :
  ∀ toBump,
    rank toBump ≤ rank (bumpLoop hasBang bang components toBump commits).
Proof.
  induction commits as [|r rest IH]; intros toBump; simpl; [done|].
  destruct (eqK toBump SemVerMajor); [done|].
  etrans; [apply (bumpStep_ge hasBang bang components toBump r)|apply IH].
Qed.

Lemma bumpLoop_Major hasBang bang components (commits : Commits) :
  bumpLoop hasBang bang components SemVerMajor commits = SemVerMajor.
Proof. by destruct commits. Qed.

Lemma bumpLoop_app hasBang bang components (a b : Commits) :
  ∀ toBump,
    bumpLoop hasBang bang components toBump (a ++ b)
    = bumpLoop hasBang bang components
               (bumpLoop hasBang bang components toBump a) b.
Proof.
  induction a as [|r a IH]; intros toBump; simpl; [done|].
  destruct (eqK toBump SemVerMajor) eqn:Hm; [|apply IH].
  apply eqK_eq in Hm as ->. by rewrite bumpLoop_Major.
Qed.

(** C3.  With the rules fix=patch, feat=minor, bang=major, whatever the
    order in which the runtime yields them, the commits fix, feat and a
    breaking fix give [SemVerMajor].  And for every rules map that has a
    rule "bang", every traversal of it and all commits: when the aggregate
    of the commits [before] is less than the severity of the rule "bang",
    a breaking commit that comes next sets the aggregate to that severity,
    whatever its type and the other rules: [determineBump] returns the
    severity of "bang" for [before] followed by the commit, and no less for
    any commits after it. *)
Theorem C3_breaking_commit_escalates
    (rulesRange0 : list (string * string))
    (c : Context) (rulesRange : list (string * string)) (kind : string)
    (before : Commits) (r : ConventionalCommit) :
  let c0 := contextOf [("fix", "patch"); ("feat", "minor"); ("bang", "major")]
                      [] [] in
  rulesRange0 ≡ₚ map_to_list (Rules c0) →
  rulesRange ≡ₚ map_to_list (Rules c) →
  Rules c !! "bang" = Some kind →
  Bang r = true →
  rank (determineBump c rulesRange before) < rank (semverFromString kind) →
  determineBump c0 rulesRange0
    [commitOf "fix" "" "a" false; commitOf "feat" "" "b" false;
     commitOf "fix" "" "c" true] = SemVerMajor
  ∧ determineBump c rulesRange (before ++ [r]) = semverFromString kind
  ∧ ∀ rest, rank (semverFromString kind)
            ≤ rank (determineBump c rulesRange (before ++ r :: rest)).
Proof.
  intros c0 Hperm0 Hperm Hbang Hr Hlt. split.
  { unfold c0, contextOf in Hperm0. cbn [Rules] in Hperm0.
    rewrite map_to_list_to_map in Hperm0 by compute_done.
    apply perm3 in Hperm0 as [->|[->|[->|[->|[->| ->]]]]]; by vm_compute. }
  assert ((groupRules rulesRange).1 = semverFromString kind) as Hsev.
  { rewrite groupRules_fold. apply groupStep_bang_present.
    - rewrite Hperm. apply NoDup_fst_map_to_list.
    - rewrite Hperm. by apply elem_of_map_to_list. }
  unfold determineBump in *. rewrite Hbang in *.
  rewrite bool_decide_eq_true_2 in * by by eexists.
  destruct (groupRules rulesRange) as [bang components].
  cbn [fst] in Hsev. subst bang.
  set (toBump := bumpLoop true (semverFromString kind) components SemVerNone
                          before) in *.
  assert (bumpLoop true (semverFromString kind) components toBump [r]
          = semverFromString kind) as Hstep.
  { cbn [bumpLoop]. unfold bumpStep. rewrite Hr.
    assert (eqK toBump SemVerMajor = false) as ->.
    { apply not_true_is_false. intros HM%eqK_eq. rewrite HM in Hlt.
      destruct (semverFromString kind); simpl in Hlt; lia. }
    by rewrite (proj2 (gtK_lt _ _) Hlt). }
  subst toBump. split.
  - by rewrite bumpLoop_app.
  - intros rest. change (r :: rest) with ([r] ++ rest).
    rewrite app_assoc, bumpLoop_app, (bumpLoop_app _ _ _ before [r]), Hstep.
    apply bumpLoop_ge.
Qed.

Lemma C3_breaking_commit_escalates_witness :
  let rules := [("fix", "patch"); ("feat", "minor"); ("bang", "major")] in
  let c := contextOf rules [] [] in
  let before := [commitOf "fix" "" "a" false; commitOf "feat" "" "b" false] in
  let r := commitOf "fix" "" "c" true in
  determineBump c rules
    [commitOf "fix" "" "a" false; commitOf "feat" "" "b" false;
     commitOf "fix" "" "c" true] = SemVerMajor
  ∧ determineBump c rules (before ++ [r]) = semverFromString "major"
  ∧ ∀ rest, rank (semverFromString "major")
            ≤ rank (determineBump c rules (before ++ r :: rest)).
Proof.
  intros rules c before r.
  refine (C3_breaking_commit_escalates rules c rules "major" before r
            _ _ _ eq_refl _).
  - compute_done.
  - compute_done.
  - reflexivity.
  - vm_compute. lia.
Defined.

(** The severity of the rule "bang" is what the breaking commit gets, also
    when it is the lowest: with bang=patch and feat=minor, a breaking feat
    that comes first gives [SemVerPatch]. *)
Example determineBump_bang_patch :
  let rules := [("feat", "minor"); ("bang", "patch")] in
  determineBump (contextOf rules [] []) rules [commitOf "feat" "" "a" true]
  = SemVerPatch.
Proof. by vm_compute. Qed.

Example determineBump_chore :
  determineBump (contextOf [("fix", "patch")] [] []) [("fix", "patch")]
    [commitOf "chore" "" "a" false; commitOf "chore" "" "b" true]
  = SemVerNone.
Proof. by vm_compute. Qed.

(** ** The commit loop of [run] *)

(** The list [c.Ignore] changes the count [excluded] and nothing else. *)
Lemma collect_Ignore (c : Context) (ignore : list string) (head : string)
    (log : list Commit) : ∀ conventionals excluded excluded',
  fst <$> collect c head log conventionals excluded
  = fst <$> collect (withIgnore c ignore) head log conventionals excluded'.
Proof.
  induction log as [|commit rest IH]; intros conventionals e e';
    cbn [collect]; [done|].
  destruct (String.eqb (Hash commit) head); [done|].
  destruct (ParseCommit _) as [conv|]; apply IH.
Qed.

(** C1 (the code departs from the claim).  With [chore] in the ignore list,
    the commit [chore: tidy] is counted as excluded and is still appended
    to [conventionals]: the [continue] that follows [excluded++] belongs to
    the loop over [c.Ignore], not to the loop over the commits.  Here a rule
    for [chore] then sets the bump: the next version is v1.3.0, where
    without the ignored commit it is v1.2.4.  In general [conventionals] is
    the same whatever the ignore list. *)
Theorem C1_ignored_commit_is_kept :
  let rules := [("fix", "patch"); ("chore", "minor")] in
  let c := contextOf rules [] ["chore"] in
  let log := [ {| Hash := "h2"; Message := "chore: tidy" |};
               {| Hash := "h1"; Message := "fix: a" |};
               {| Hash := "h0"; Message := "feat: first" |} ] in
  collect c "h0" log [] 0
  = Some ([commitOf "chore" "" "tidy" false; commitOf "fix" "" "a" false], 1)
  ∧ run c rules "v1.2.3" "h0" log
    = Releasing "v1.3.0"
        [commitOf "chore" "" "tidy" false; commitOf "fix" "" "a" false]
  ∧ run c rules "v1.2.3" "h0" (tl log)
    = Releasing "v1.2.4" [commitOf "fix" "" "a" false]
  ∧ (∀ c' ignore head log' conventionals excluded,
       fst <$> collect c' head log' conventionals excluded
       = fst <$> collect (withIgnore c' ignore) head log' conventionals
                         excluded).
Proof.
  intros rules c log.
  split; [by vm_compute|]. split; [by vm_compute|]. split; [by vm_compute|].
  intros. apply collect_Ignore.
Qed.

(** ** The notes composer *)

Lemma findCategory_Some commitType order cat :
  findCategory commitType order = Some cat →
  cat ∈ order.*1 ∧ cat ≠ "*" ∧ commitType = strings.ToLower cat.
Proof.
  induction order as [|[k v] order IH]; simpl; [done|].
  destruct (String.eqb_spec k "*") as [->|Hk].
  - intros (? & ? & ?)%IH. split; [by right|done].
  - destruct (String.eqb_spec commitType (strings.ToLower k)) as [->|_].
    + intros [= <-]. split; [by left|done].
    + intros (? & ? & ?)%IH. split; [by right|done].
Qed.

Lemma findCategory_None commitType order cat :
  findCategory commitType order = None →
  cat ∈ order.*1 → cat = "*" ∨ commitType ≠ strings.ToLower cat.
Proof.
  induction order as [|[k v] order IH]; simpl.
  - intros _ []%elem_of_nil.
  - destruct (String.eqb_spec k "*") as [->|Hk].
    + intros H [->|?]%elem_of_cons; auto.
    + destruct (String.eqb_spec commitType (strings.ToLower k)) as [->|Hne];
        [done|].
      intros H [->|?]%elem_of_cons; auto.
Qed.

(** The output is the sections of the entries, in the order of the last
    loop. *)
Lemma fold_sections {A B} (f : A → list B) (l : list A) : ∀ output,
  fold_left (λ output entry, output ++ f entry) l output
  = output ++ concat (f <$> l).
Proof.
  induction l as [|x l IH]; intros output; simpl.
  - by rewrite app_nil_r.
  - by rewrite IH, <- app_assoc.
Qed.

Lemma releaseLines_sections c rg commits :
  releaseLines c rg commits
  = concat (sectionOf
              (bucketLoop rg
                 (existsb (λ e, String.eqb e.1 "*") (rangeOther rg))
                 0 commits ∅ []).1
            <$> rangeOutput rg).
Proof.
  unfold releaseLines. destruct (bucketLoop _ _ _ _ _ _) as [cats others].
  by rewrite fold_sections.
Qed.

(** C2 (the code departs from the claim).  With the categories
    feat=Features and *=Other, whatever the orders of the traversals: a
    commit of type [feat] is written under the title Features, but a commit
    of type [chore], which no category matches, gives no line although the
    category "*" is there: the lines collected in [others] are never added
    to [output]. *)
Theorem C2_wildcard_section_missing (rg : ranges) :
  let c := contextOf [] [("feat", "Features"); ("*", "Other")] [] in
  ranges_of (Categories c) rg →
  makeReleaseText c rg [commitOf "chore" "" "tidy" false] = EmptyString
  ∧ makeReleaseText c rg [commitOf "feat" "" "add" false;
                          commitOf "chore" "" "tidy" false]
    = "# Features" +:+ nl +:+ "- add".
Proof.
  intros c (H1 & H2 & H3). unfold c, contextOf in *. cbn [Categories] in *.
  pose proof (H2 0) as H20. pose proof (H2 1) as H21.
  rewrite map_to_list_to_map in H1, H20, H21, H3 by compute_done.
  unfold makeReleaseText, releaseLines. simpl.
  apply perm2 in H1 as [-> | ->], H20 as [-> | ->], H21 as [-> | ->],
    H3 as [-> | ->]; by vm_compute.
Qed.

Lemma C2_wildcard_section_missing_witness :
  let categories := [("feat", "Features"); ("*", "Other")] in
  makeReleaseText (contextOf [] categories []) (sameOrder categories)
    [commitOf "chore" "" "tidy" false] = EmptyString.
Proof.
  intros categories.
  refine (proj1 (C2_wildcard_section_missing (sameOrder categories) _)).
  split; [compute_done|]. split; [intros i|]; compute_done.
Defined.

(** ** Version arithmetic *)

Lemma string_of_uint_digits (u : Decimal.uint) :
  allb isDigit (NilEmpty.string_of_uint u) = true.
Proof. induction u; simpl; by rewrite ?IHu. Qed.

(** The text that [%d] prints for a number that is not negative: its
    decimal digits, at least one. *)
Lemma formatInt_nonneg (x : Z) :
  (0 ≤ x)%Z →
  ∃ u, formatInt x = NilEmpty.string_of_uint u ∧ u ≠ Decimal.Nil
       ∧ Z.of_uint u = x.
Proof.
  intros Hx. unfold formatInt. destruct x as [|p|p]; [| |lia].
  - exists (Decimal.D0 Decimal.Nil). by repeat split.
  - simpl. exists (Pos.to_uint p).
    pose proof (DecimalPos.Unsigned.to_uint_nonnil p) as Hn.
    split; [by destruct (Pos.to_uint p)|]. split; [done|].
    unfold Z.of_uint. by rewrite DecimalPos.Unsigned.of_to.
Qed.

Lemma formatInt_digits (x : Z) :
  (0 ≤ x)%Z → allb isDigit (formatInt x) = true
             ∧ formatInt x ≠ EmptyString.
Proof.
  intros (u & -> & Hu & _)%formatInt_nonneg.
  split; [apply string_of_uint_digits|]. by destruct u.
Qed.

(** [Atoi] reads back what [%d] prints, for a number of the range of
    [int] that is not negative. *)
Lemma Atoi_formatInt (x : Z) :
  (0 ≤ x ≤ maxInt64)%Z → Atoi (formatInt x) = x.
Proof.
  intros [Hx Hmax].
  destruct (formatInt_digits x Hx) as [Hd Hne].
  destruct (formatInt_nonneg x Hx) as (u & Hfmt & Hu & Hval).
  unfold Atoi. destruct (formatInt x) as [|c r] eqn:Hf; [done|].
  simpl in Hd. apply andb_true_iff in Hd as [Hc _].
  destruct (Ascii.eqb_spec c "-"%char) as [->|_]; [done|].
  destruct (Ascii.eqb_spec c "+"%char) as [->|_]; [done|].
  cbn [eql.isEmpty]. rewrite Hfmt, NilEmpty.usu, Hval.
  unfold minInt64, maxInt64 in *. lia.
Qed.

Lemma Split_one (a : string) (sep : ascii) :
  allb (λ x, negb (Ascii.eqb x sep)) a = true → strings.Split a sep = [a].
Proof.
  induction a as [|c a IH]; simpl; [done|].
  intros [Hc Ha]%andb_true_iff. apply negb_true_iff in Hc.
  by rewrite Hc, (IH Ha).
Qed.

Lemma Split_app (a b : string) (sep : ascii) :
  allb (λ x, negb (Ascii.eqb x sep)) a = true →
  strings.Split (a +:+ String sep b) sep = a :: strings.Split b sep.
Proof.
  induction a as [|c a IH].
  - intros _. rewrite append_nil_l. simpl. by rewrite Ascii.eqb_refl.
  - simpl. intros [Hc Ha]%andb_true_iff. apply negb_true_iff in Hc.
    by rewrite Hc, (IH Ha).
Qed.

Lemma digits_no_dot (a : string) :
  allb isDigit a = true → allb (λ x, negb (Ascii.eqb x chDot)) a = true.
Proof.
  induction a as [|c a IH]; simpl; [done|].
  intros [Hc Ha]%andb_true_iff. rewrite (IH Ha), andb_true_r.
  apply negb_true_iff. destruct (Ascii.eqb_spec c chDot) as [->|]; done.
Qed.

(** [parseSemVer] reads back the three numbers of a version string. *)
Lemma parseSemVer_versionString (major minor patch : Z) :
  (0 ≤ major ≤ maxInt64)%Z → (0 ≤ minor ≤ maxInt64)%Z →
  (0 ≤ patch ≤ maxInt64)%Z →
  parseSemVer (versionString major minor patch) = Some (major, minor, patch).
Proof.
  intros HM Hm Hp. unfold parseSemVer, versionString.
  destruct (formatInt_digits major (proj1 HM)) as [HdM _].
  destruct (formatInt_digits minor (proj1 Hm)) as [Hdm _].
  destruct (formatInt_digits patch (proj1 Hp)) as [Hdp _].
  change (strings.TrimPrefix ("v" +:+ ?x) "v") with (strings.TrimPrefix (String "v" x) "v").
  assert (∀ x, strings.TrimPrefix (String "v" x) "v" = x) as ->.
  { intros x. unfold strings.TrimPrefix. simpl. by destruct x. }
  change ("." +:+ ?x) with (String chDot x).
  rewrite Split_app by by apply digits_no_dot.
  change ("." +:+ ?x) with (String chDot x).
  rewrite Split_app, Split_one by by apply digits_no_dot.
  by rewrite !Atoi_formatInt.
Qed.

Lemma incr_small (x : Z) : (0 ≤ x < maxInt64)%Z → incr x = (x + 1)%Z.
Proof.
  unfold incr, maxInt64. intros Hx.
  rewrite Z.mod_small by lia. lia.
Qed.

(** C9 (amended).  When the three numbers of the prior version
    vMAJOR.MINOR.PATCH are below the largest [int], [run] releases, for the
    severity that [determineBump] returns: PATCH plus one for a patch; MINOR
    plus one and PATCH 0 for a minor; MAJOR plus one and MINOR and PATCH 0
    for a major; and no version at all for none.  The version is written
    vMAJOR.MINOR.PATCH. *)
Theorem C9_next_version (c : Context) (rulesRange : list (string * string))
    (head : string) (log : list Commit) (conventionals : Commits)
    (excluded : nat) (major minor patch : Z) :
  (0 ≤ major < maxInt64)%Z → (0 ≤ minor < maxInt64)%Z →
  (0 ≤ patch < maxInt64)%Z →
  collect c head log [] 0 = Some (conventionals, excluded) →
  conventionals ≠ [] →
  run c rulesRange (versionString major minor patch) head log
  = match determineBump c rulesRange conventionals with
    | SemVerPatch =>
        Releasing (versionString major minor (patch + 1)) conventionals
    | SemVerMinor =>
        Releasing (versionString major (minor + 1) 0) conventionals
    | SemVerMajor =>
        Releasing (versionString (major + 1) 0 0) conventionals
    | SemVerNone => NoBump
    end.
Proof.
  intros HM Hm Hp Hcollect Hne. unfold run. rewrite Hcollect.
  destruct conventionals as [|r rest]; [done|]. cbn [length Nat.eqb].
  rewrite parseSemVer_versionString by lia.
  unfold bumpVersion.
  destruct (determineBump c rulesRange (r :: rest));
    by rewrite ?incr_small by done.
Qed.

Lemma C9_next_version_witness :
  let rules := [("fix", "patch"); ("feat", "minor")] in
  run (contextOf rules [] []) rules "v1.2.3" "h0"
      [ {| Hash := "h1"; Message := "feat: b" |};
        {| Hash := "h0"; Message := "fix: a" |} ]
  = Releasing "v1.3.0" [commitOf "feat" "" "b" false].
Proof.
  intros rules.
  refine (C9_next_version (contextOf rules [] []) rules "h0"
            [ {| Hash := "h1"; Message := "feat: b" |};
              {| Hash := "h0"; Message := "fix: a" |} ]
            [commitOf "feat" "" "b" false] 0 1 2 3 _ _ _ eq_refl _);
    (unfold maxInt64; lia) || discriminate.
Defined.

(** C9, as stated, fails on the prior version v0.0.9223372036854775807,
    whose PATCH is the largest [int]: a patch bump wraps around and the next
    version is v0.0.-9223372036854775808. *)
Lemma C9_overflow_counterexample :
  let rules := [("fix", "patch")] in
  parseSemVer "v0.0.9223372036854775807"
  = Some (0, 0, 9223372036854775807)%Z
  ∧ run (contextOf rules [] []) rules "v0.0.9223372036854775807" "h0"
        [ {| Hash := "h1"; Message := "fix: a" |};
          {| Hash := "h0"; Message := "feat: first" |} ]
    = Releasing "v0.0.-9223372036854775808" [commitOf "fix" "" "a" false]
  ∧ "v0.0.-9223372036854775808"
    ≠ versionString 0 0 (9223372036854775807 + 1).
Proof. intros rules. split; [|split]; by vm_compute. Qed.

(** ** Traversal orders and the release notes *)

Lemma NoDup_fmap_eq {A B} (f : A → B) (l : list A) (x y : A) :
  NoDup (f <$> l) → x ∈ l → y ∈ l → f x = f y → x = y.
Proof.
  induction l as [|a l IH]; simpl; [by intros _ []%elem_of_nil|].
  intros [Hnotin Hnd]%NoDup_cons [->|Hx]%elem_of_cons [->|Hy]%elem_of_cons Hf;
    try done.
  - destruct Hnotin. rewrite Hf. by apply list_elem_of_fmap_2.
  - destruct Hnotin. rewrite <- Hf. by apply list_elem_of_fmap_2.
  - by apply IH.
Qed.

(** When no two keys are equal up to the case of their letters, the
    category of a commit does not depend on the order of the traversal. *)
Lemma findCategory_perm (commitType : string)
    (order1 order2 : list (string * string)) :
  order1 ≡ₚ order2 →
  NoDup (strings.ToLower <$> order1.*1) →
  findCategory commitType order1 = findCategory commitType order2.
Proof.
  intros Hperm Hnd.
  assert (∀ k, k ∈ order1.*1 ↔ k ∈ order2.*1) as Hkeys.
  { intros k. by rewrite Hperm. }
  destruct (findCategory commitType order1) as [cat1|] eqn:H1;
    destruct (findCategory commitType order2) as [cat2|] eqn:H2; [| | |done].
  - apply findCategory_Some in H1 as (Hin1 & _ & ->).
    apply findCategory_Some in H2 as (Hin2 & _ & Heq).
    f_equal. apply Hkeys in Hin2.
    by apply (NoDup_fmap_eq strings.ToLower (order1.*1)).
  - apply findCategory_Some in H1 as (Hin1 & Hstar & ->).
    apply Hkeys in Hin1.
    by destruct (findCategory_None _ _ _ H2 Hin1).
  - apply findCategory_Some in H2 as (Hin2 & Hstar & ->).
    apply Hkeys in Hin2.
    by destruct (findCategory_None _ _ _ H1 Hin2).
Qed.

Lemma bucketLoop_perm (m : list (string * string)) (rg1 rg2 : ranges)
    (commits : Commits) :
  (∀ i, rangeMatch rg1 i ≡ₚ m) → (∀ i, rangeMatch rg2 i ≡ₚ m) →
  NoDup (strings.ToLower <$> m.*1) →
  ∀ u1 u2 i1 i2 categories others1 others2,
    (bucketLoop rg1 u1 i1 commits categories others1).1
    = (bucketLoop rg2 u2 i2 commits categories others2).1.
Proof.
  intros H1 H2 Hnd.
  induction commits as [|r rest IH]; intros u1 u2 i1 i2 cats o1 o2;
    cbn [bucketLoop]; [done|].
  rewrite (findCategory_perm _ (rangeMatch rg1 i1) (rangeMatch rg2 i2)).
  - destruct (findCategory _ _); apply IH.
  - by rewrite H1, H2.
  - by rewrite H1.
Qed.

(** The buckets hold lines of the commits, and no bucket is empty. *)
Lemma bucketLoop_items (rg : ranges) (all commits : Commits) :
  (∀ r, r ∈ commits → r ∈ all) →
  ∀ u i categories others,
    (∀ cat items, categories !! cat = Some items →
       items ≠ [] ∧ ∀ line, line ∈ items →
                      ∃ r, r ∈ all ∧ line = formatCommit r) →
    ∀ cat items,
      (bucketLoop rg u i commits categories others).1 !! cat = Some items →
      items ≠ [] ∧ ∀ line, line ∈ items →
                     ∃ r, r ∈ all ∧ line = formatCommit r.
Proof.
  induction commits as [|r rest IH]; intros Hall u i cats others Hcats;
    cbn [bucketLoop]; [done|].
  assert (∀ x, x ∈ rest → x ∈ all) as Hrest
      by (intros x ?; apply Hall; by right).
  destruct (findCategory _ (rangeMatch rg i)) as [cat'|];
    [|by apply IH].
  apply IH; [done|]. intros cat items.
  destruct (decide (cat' = cat)) as [<-|Hne].
  - rewrite lookup_insert_eq. intros [= <-]. split.
    + by destruct (match cats !! cat' with Some v => v | None => [] end).
    + intros line [Hin|Hin]%elem_of_app.
      * destruct (cats !! cat') as [v|] eqn:Hv;
          [|by apply elem_of_nil in Hin].
        by apply (Hcats cat' v Hv).
      * apply list_elem_of_singleton in Hin as ->. exists r.
        split; [|done]. apply Hall. by left.
  - rewrite lookup_insert_ne by done. apply Hcats.
Qed.

(** C8 (amended).  Two runs of the notes composer on the same commits and
    the same category mapping, in which no two keys are equal up to the
    case of their letters, write the same sections, each in the place that
    the traversal of that run gives it.  There is one assignment of lines of
    the commits to the categories such that each run writes, for every
    category in the order of its own last loop, the title of the category
    followed by the lines of that category, and nothing for a category
    without lines; the two orders are permutations of each other, and the
    text is the same when they are the same order. *)
Theorem C8_same_sections (c : Context) (commits : Commits)
    (rg1 rg2 : ranges) :
  ranges_of (Categories c) rg1 → ranges_of (Categories c) rg2 →
  NoDup (strings.ToLower <$> (map_to_list (Categories c)).*1) →
  (∃ categories : gmap string (list string),
      releaseLines c rg1 commits
      = concat (sectionOf categories <$> rangeOutput rg1)
      ∧ releaseLines c rg2 commits
        = concat (sectionOf categories <$> rangeOutput rg2)
      ∧ rangeOutput rg1 ≡ₚ rangeOutput rg2
      ∧ ∀ cat items, categories !! cat = Some items →
          items ≠ [] ∧ ∀ line, line ∈ items →
                         ∃ r, r ∈ commits ∧ line = formatCommit r)
  ∧ (rangeOutput rg1 = rangeOutput rg2 →
     makeReleaseText c rg1 commits = makeReleaseText c rg2 commits).
Proof.
  intros (_ & Hm1 & Ho1) (_ & Hm2 & Ho2) Hnd.
  unfold makeReleaseText. rewrite !releaseLines_sections.
  rewrite (bucketLoop_perm _ rg1 rg2 commits Hm1 Hm2 Hnd _
             (existsb (λ e, String.eqb e.1 "*") (rangeOther rg2))
             0 0 ∅ [] []).
  split.
  - eexists. split; [reflexivity|]. split; [reflexivity|].
    split; [by rewrite Ho1, Ho2|].
    apply (bucketLoop_items rg2 commits commits); [done|].
    intros cat items Habs. by rewrite lookup_empty in Habs.
  - by intros ->.
Qed.

Lemma C8_same_sections_witness :
  let categories := [("feat", "Features"); ("fix", "Fixes")] in
  let c := contextOf [] categories [] in
  let commits := [commitOf "feat" "" "a" false; commitOf "fix" "" "b" false] in
  let rg1 := sameOrder categories in
  let rg2 := sameOrder (reverse categories) in
  ∃ buckets : gmap string (list string),
    releaseLines c rg1 commits
    = concat (sectionOf buckets <$> rangeOutput rg1)
    ∧ releaseLines c rg2 commits
      = concat (sectionOf buckets <$> rangeOutput rg2)
    ∧ rangeOutput rg1 ≡ₚ rangeOutput rg2
    ∧ ∀ cat items, buckets !! cat = Some items →
        items ≠ [] ∧ ∀ line, line ∈ items →
                       ∃ r, r ∈ commits ∧ line = formatCommit r.
Proof.
  intros categories c commits rg1 rg2.
  refine (proj1 (C8_same_sections c commits rg1 rg2 _ _ _)).
  - split; [compute_done|]. split; [intros i|]; compute_done.
  - split; [compute_done|]. split; [intros i|]; compute_done.
  - compute_done.
Defined.

(** C8, as stated, fails as soon as two categories have commits: the
    runtime may visit feat before fix in one run and fix before feat in the
    next, and the two texts differ. *)
Lemma C8_section_order_counterexample :
  let categories := [("feat", "Features"); ("fix", "Fixes")] in
  let c := contextOf [] categories [] in
  let commits := [commitOf "feat" "" "a" false; commitOf "fix" "" "b" false] in
  let rg1 := sameOrder categories in
  let rg2 := sameOrder (reverse categories) in
  ranges_of (Categories c) rg1 ∧ ranges_of (Categories c) rg2
  ∧ makeReleaseText c rg1 commits
    = "# Features" +:+ nl +:+ "- a" +:+ nl +:+ "# Fixes" +:+ nl +:+ "- b"
  ∧ makeReleaseText c rg2 commits
    = "# Fixes" +:+ nl +:+ "- b" +:+ nl +:+ "# Features" +:+ nl +:+ "- a"
  ∧ makeReleaseText c rg1 commits ≠ makeReleaseText c rg2 commits.
Proof.
  intros categories c commits rg1 rg2.
  split; [|split].
  - split; [compute_done|]. split; [intros i|]; compute_done.
  - split; [compute_done|]. split; [intros i|]; compute_done.
  - split; [|split]; by vm_compute.
Qed.

(** Why C8 asks for keys that differ by more than the case of their
    letters: with the keys Feat and feat, the commit goes to the bucket of
    the key visited first, and the last loop reads the bucket of the lowered
    key for both: one run writes nothing, the other writes the line under
    both titles. *)
Example makeReleaseText_case_collision :
  let categories := [("Feat", "A"); ("feat", "B")] in
  let c := contextOf [] categories [] in
  let commits := [commitOf "feat" "" "x" false] in
  makeReleaseText c (sameOrder categories) commits = EmptyString
  ∧ makeReleaseText c (sameOrder (reverse categories)) commits
    = "# B" +:+ nl +:+ "- x" +:+ nl +:+ "# A" +:+ nl +:+ "- x".
Proof. by vm_compute. Qed.

(** * Further properties of the code *)

(** ** White space *)

Lemma trimLeft_head (t : string) :
  match strings.trimLeft t with
  | EmptyString => True
  | String c _ => strings.isSpace c = false
  end.
Proof.
  induction t as [|c t IH]; simpl; [done|].
  destruct (strings.isSpace c) eqn:Hc; [done|]. by rewrite Hc.
Qed.

Lemma trimLeft_id (t : string) :
  match t with
  | EmptyString => True
  | String c _ => strings.isSpace c = false
  end → strings.trimLeft t = t.
Proof. destruct t as [|c t]; simpl; [done|]. by intros ->. Qed.

Lemma trimRight_cons (c : ascii) (t : string) :
  strings.isSpace c = false →
  strings.trimRight (String c t) = String c (strings.trimRight t).
Proof. intros Hc. simpl. rewrite Hc. by destruct (strings.trimRight t). Qed.

Lemma trimRight_idem (t : string) :
  strings.trimRight (strings.trimRight t) = strings.trimRight t.
Proof.
  induction t as [|c t IH]; simpl; [done|].
  destruct (strings.trimRight t) as [|c' t'] eqn:Ht.
  - destruct (strings.isSpace c) eqn:Hc; simpl; [done|]. by rewrite Hc.
  - change (strings.trimRight (String c (String c' t')))
      with (match strings.trimRight (String c' t') with
            | EmptyString =>
                if strings.isSpace c then EmptyString else str1 c
            | r' => String c r'
            end).
    by rewrite IH.
Qed.

(** [TrimSpace] changes nothing in a text that it has trimmed. *)
Lemma TrimSpace_idem (t : string) :
  strings.TrimSpace (strings.TrimSpace t) = strings.TrimSpace t.
Proof.
  unfold strings.TrimSpace.
  pose proof (trimLeft_head t) as Hh.
  destruct (strings.trimLeft t) as [|c u] eqn:Ht; [done|].
  rewrite (trimRight_cons c u Hh).
  rewrite (trimLeft_id (String c _)) by done.
  rewrite <- (trimRight_cons c u Hh). apply trimRight_idem.
Qed.

Lemma allb_impl (p q : ascii → bool) (t : string) :
  (∀ c, p c = true → q c = true) → allb p t = true → allb q t = true.
Proof.
  intros Hpq. induction t as [|c t IH]; simpl; [done|].
  intros [Hc Ht]%andb_true_iff. by rewrite (Hpq c Hc), (IH Ht).
Qed.

Lemma allb_app (p : ascii → bool) (a b : string) :
  allb p (a +:+ b) = allb p a && allb p b.
Proof.
  induction a as [|c a IH]; simpl; [done|]. by rewrite IH, andb_assoc.
Qed.

Lemma allb_trimLeft (p : ascii → bool) (t : string) :
  allb p t = true → allb p (strings.trimLeft t) = true.
Proof.
  induction t as [|c t IH]; simpl; [done|].
  intros [Hc Ht]%andb_true_iff.
  destruct (strings.isSpace c); [by apply IH|]. simpl. by rewrite Hc, Ht.
Qed.

Lemma allb_trimRight (p : ascii → bool) (t : string) :
  allb p t = true → allb p (strings.trimRight t) = true.
Proof.
  induction t as [|c t IH]; simpl; [done|].
  intros [Hc Ht]%andb_true_iff. specialize (IH Ht).
  destruct (strings.trimRight t) as [|c' t'].
  - destruct (strings.isSpace c); simpl; [done|]. by rewrite Hc.
  - simpl in *. by rewrite Hc, IH.
Qed.

Lemma allb_TrimSpace (p : ascii → bool) (t : string) :
  allb p t = true → allb p (strings.TrimSpace t) = true.
Proof. intros H. by apply allb_trimRight, allb_trimLeft. Qed.

(** ** More on the configuration parser *)
















(** Without [=] the scan stays in [stateKey] and commits nothing. *)
Lemma scan_no_eq (str : string) : ∀ i esc q tk tv res,
  allb (λ c, negb (Ascii.eqb c chEq)) str = true →
  ∃ tk', eql.scan i str (eql.Scanner eql.stateKey esc q tk tv res)
         = inl (eql.Scanner eql.stateKey esc q tk' tv res).
Proof.
  induction str as [|r rest IH]; intros i esc q tk tv res; simpl.
  - intros _. by exists tk.
  - intros [Hr Hrest]%andb_true_iff. apply negb_true_iff in Hr.
    unfold eql.step. simpl. rewrite Hr.
    destruct (Ascii.eqb r chSpace && eql.isEmpty tk); by apply IH.
Qed.

(** X1.  An input without [=] gives the empty mapping and no error: a key
    that no [=] follows is dropped. *)
Theorem X1_parse_without_eq (str : string) :
  allb (λ c, negb (Ascii.eqb c chEq)) str = true →
  eql.Parse str = inl ∅.
Proof.
  intros H. unfold eql.Parse, eql.initial.
  destruct (scan_no_eq str 0 false chSpace EmptyString EmptyString ∅ H)
    as [tk' ->].
  done.
Qed.

Lemma X1_parse_without_eq_witness : eql.Parse "fix patch" = inl ∅.
Proof. exact (X1_parse_without_eq "fix patch" eq_refl). Defined.

Lemma pushAndReset_inv (sc : eql.scanner) :
  scannerInv sc → scannerInv (eql.pushAndReset sc).
Proof.
  intros [Hk Hres]. split; [done|]. intros k v. simpl.
  destruct (decide (strings.TrimSpace (eql.tmpKey sc) = k)) as [<-|Hne].
  - rewrite lookup_insert_eq. intros [= <-].
    rewrite !TrimSpace_idem. by rewrite allb_TrimSpace.
  - rewrite lookup_insert_ne by done. apply Hres.
Qed.

Lemma step_inv (i : nat) (r : ascii) (sc sc' : eql.scanner) :
  eql.step i r sc = inl sc' → scannerInv sc → scannerInv sc'.
Proof.
  intros Hstep Hinv. pose proof (pushAndReset_inv sc Hinv) as Hpush.
  destruct Hinv as [Hk Hres]. unfold eql.step in Hstep.
  destruct (eql.s sc).
  - destruct (Ascii.eqb r chSpace && eql.isEmpty (eql.tmpKey sc));
      [by injection Hstep as <-|].
    destruct (Ascii.eqb r chEq) eqn:Hr.
    + destruct (eql.isEmpty (eql.tmpKey sc)); [done|].
      by injection Hstep as <-.
    + injection Hstep as <-. split; [|done]. simpl. unfold eql.push.
      rewrite allb_app, Hk. simpl. unfold noEq. by rewrite Hr.
  - destruct (eql.isEmpty (eql.tmpValue sc) && Ascii.eqb r chSpace);
      [by injection Hstep as <-|].
    destruct (Ascii.eqb r chDQuote
              || Ascii.eqb r chSQuote && eql.isEmpty (eql.tmpValue sc));
      [by injection Hstep as <-|].
    destruct (Ascii.eqb r chSpace); by injection Hstep as <-.
  - destruct (Ascii.eqb r chBackslash); [by injection Hstep as <-|].
    destruct (eql.isEscaping sc); [by injection Hstep as <-|].
    destruct (negb false && Ascii.eqb r (eql.quoteStyle sc));
      by injection Hstep as <-.
Qed.

Lemma scan_inv (str : string) : ∀ i sc sc',
  eql.scan i str sc = inl sc' → scannerInv sc → scannerInv sc'.
Proof.
  induction str as [|r rest IH]; intros i sc sc'; simpl.
  - by intros [= <-].
  - destruct (eql.step i r sc) as [sc1|e] eqn:Hstep; [|done].
    intros Hscan Hinv. eapply IH; [done|]. by eapply step_inv.
Qed.

(** X5.  Whatever the input, every key and every value of the mapping that
    [Parse] returns is trimmed of white space at both ends, and no key
    contains [=]. *)
Theorem X5_parse_entries_trimmed (str : string) (m : gmap string string)
    (k v : string) :
  eql.Parse str = inl m → m !! k = Some v →
  strings.TrimSpace k = k ∧ strings.TrimSpace v = v ∧ allb noEq k = true.
Proof.
  unfold eql.Parse.
  destruct (eql.scan 0 str eql.initial) as [sc|e] eqn:Hscan; [|done].
  assert (scannerInv sc) as Hinv.
  { eapply scan_inv; [done|]. split; [done|]. intros k' v'.
    unfold eql.initial. cbn [eql.result]. by rewrite lookup_empty. }
  pose proof (pushAndReset_inv sc Hinv) as [_ Hpush].
  destruct Hinv as [_ Hres].
  destruct (eql.s sc); [| |done]; intros [= <-]; auto.
Qed.

Lemma X5_parse_entries_trimmed_witness :
  strings.TrimSpace "a b" = "a b" ∧ strings.TrimSpace "c" = "c"
  ∧ allb noEq "a b" = true.
Proof.
  refine (X5_parse_entries_trimmed "  a b =  c " {[ "a b" := "c" ]}
            "a b" "c" _ _); by vm_compute.
Defined.
(** ** More on the commit parser *)

Lemma parseHeader_shape (msg : string) (r : ConventionalCommit) :
  parseHeader msg = Some r →
  headerShape msg (Type_ r) (Scope r)
              (if Bang r then str1 chBang else EmptyString)
              (Description r)
  ∧ Body r = EmptyString.
Proof.
  unfold parseHeader.
  destruct (MatchString conventionalRegexp msg); [|done].
  cbn [negb].
  destruct (FindStringSubmatch_conventional msg) as [[[[k sc] b] d]|] eqn:Hf;
    [|done].
  intros [= <-]. cbn [Type_ Scope Bang Description Body]. split; [|done].
  apply FindStringSubmatch_inv in Hf.
  destruct Hf as (H1 & H2 & H3 & H4 & [-> | ->] & H6 & H7);
    cbn [String.eqb Ascii.eqb Bool.eqb str1 chBang];
    unfold headerShape; repeat split; auto.
Qed.

(** X6.  A message that is not multi-line and parses is written back by its
    fields: the type, the scope between parentheses when there is one, [!]
    when the commit is breaking, a colon, a space and the description; its
    body is empty. *)
Theorem X6_header_round_trip (msg : string) (r : ConventionalCommit) :
  MatchString multiLineCommit msg = false →
  ParseCommit msg = Some r →
  msg = Type_ r +:+ scopeText (Scope r)
          +:+ (if Bang r then "!" else "") +:+ ": " +:+ Description r
  ∧ Body r = EmptyString.
Proof.
  intros Hm. rewrite ParseCommit_unfold, Hm.
  intros [Hshape Hbody]%parseHeader_shape. split; [|done].
  destruct Hshape as (Hmsg & _). rewrite Hmsg at 1. by destruct (Bang r).
Qed.

Lemma X6_header_round_trip_witness :
  "feat(api)!: add" = "feat" +:+ scopeText "api" +:+ "!" +:+ ": " +:+ "add"
  ∧ EmptyString = EmptyString.
Proof.
  exact (X6_header_round_trip "feat(api)!: add"
           {| Type_ := "feat"; SemVerChange := SemVerNone; Scope := "api";
              Description := "add"; Body := EmptyString; Bang := true |}
           ltac:(vm_compute; reflexivity) ltac:(vm_compute; reflexivity)).
Defined.

(** X7.  Every commit that [ParseCommit] returns, for a message of one or
    of several lines, has a type that is not empty and has none of the
    bytes [(], [:] and [!], a scope without [)], and a description that is
    not empty and has no line feed. *)
Theorem X7_parsed_fields (msg : string) (r : ConventionalCommit) :
  ParseCommit msg = Some r →
  Type_ r ≠ EmptyString
  ∧ allb (noneOf [chLParen; chColon; chBang]) (Type_ r) = true
  ∧ allb (noneOf [chRParen]) (Scope r) = true
  ∧ Description r ≠ EmptyString
  ∧ allb (noneOf [chNL]) (Description r) = true.
Proof.
  rewrite ParseCommit_unfold.
  destruct (MatchString multiLineCommit msg).
  - cbv zeta. rewrite ParseCommit_unfold, first_line_not_multiLine.
    destruct (parseHeader _) as [h|] eqn:Hh; [|done].
    intros [= <-].
    destruct (footers_fold (tl (strings.Split msg chNL)) h)
      as (_ & HT & HS & HD).
    cbn [setBody Type_ Scope Description]. cbv zeta in HT, HS, HD.
    rewrite HT, HS, HD.
    apply parseHeader_shape in Hh as [(_ & ? & ? & ? & _ & ? & ?) _].
    by repeat split.
  - intros [(_ & ? & ? & ? & _ & ? & ?) _]%parseHeader_shape.
    by repeat split.
Qed.

Lemma X7_parsed_fields_witness :
  "feat" ≠ EmptyString
  ∧ allb (noneOf [chLParen; chColon; chBang]) "feat" = true
  ∧ allb (noneOf [chRParen]) "api" = true
  ∧ "add" ≠ EmptyString
  ∧ allb (noneOf [chNL]) "add" = true.
Proof.
  exact (X7_parsed_fields ("feat(api): add" +:+ nl +:+ nl +:+ "body")
           {| Type_ := "feat"; SemVerChange := SemVerNone; Scope := "api";
              Description := "add"; Body := nl +:+ "body"; Bang := false |}
           ltac:(vm_compute; reflexivity)).
Defined.

(** X8.  A message without a colon followed by a space is not
    conventional, whatever its lines. *)
Theorem X8_no_colon_space (msg : string) :
  strings.Contains msg ": " = false → ParseCommit msg = None.
Proof.
  intros Hc. destruct (ParseCommit msg) as [r|] eqn:Hp; [|done].
  exfalso. apply not_true_iff_false in Hc. apply Hc.
  apply strings_facts.Contains_iff.
  rewrite ParseCommit_unfold in Hp.
  destruct (MatchString multiLineCommit msg) eqn:Hm.
  - cbv zeta in Hp. rewrite ParseCommit_unfold, first_line_not_multiLine in Hp.
    destruct (parseHeader _) as [h|] eqn:Hh; [|done].
    apply parseHeader_shape in Hh as [(Hhd & _) _].
    rewrite (strings_facts.Split_first_rest msg chNL)
      by by apply Contains_blank_line, multiLine_blank_line.
    rewrite Hhd.
    exists (Type_ h +:+ scopeText (Scope h)
            +:+ (if Bang h then str1 chBang else EmptyString)),
           (Description h +:+ str1 chNL
            +:+ strings.Join (tl (strings.Split msg chNL)) (str1 chNL)).
    by rewrite !append_assoc.
  - apply parseHeader_shape in Hp as [(Hmsg & _) _].
    exists (Type_ r +:+ scopeText (Scope r)
            +:+ (if Bang r then str1 chBang else EmptyString)),
           (Description r).
    rewrite Hmsg at 1. by rewrite !append_assoc.
Qed.

Lemma X8_no_colon_space_witness : ParseCommit "Merge branch x" = None.
Proof.
  exact (X8_no_colon_space "Merge branch x" ltac:(vm_compute; reflexivity)).
Defined.

(** ** More on the bump determiner *)

(** X12.  Commits added at the end never lower the bump: the severity for
    the longer sequence is at least the severity for the shorter one. *)
Theorem X12_more_commits_never_lower (c : Context)
    (rulesRange : list (string * string)) (commits more : Commits) :
  rank (determineBump c rulesRange commits)
  ≤ rank (determineBump c rulesRange (commits ++ more)).
Proof.
  unfold determineBump. destruct (groupRules rulesRange) as [bang components].
  rewrite bumpLoop_app. apply bumpLoop_ge.
Qed.

Lemma ruleNames_elem (k : SemVerComponent) (rulesRange : list (string * string))
    (name : string) :
  name ∈ ruleNames k rulesRange → name ∈ rulesRange.*1.
Proof.
  unfold ruleNames. intros ([n kd] & -> & Hin)%list_elem_of_fmap.
  apply list_elem_of_In, filter_In in Hin as [Hin _].
  apply list_elem_of_fmap. exists (n, kd). split; [done|].
  by apply list_elem_of_In.
Qed.

Lemma ruleNames_intro (rulesRange : list (string * string))
    (name kind : string) :
  (name, kind) ∈ rulesRange → name ≠ "bang" →
  name ∈ ruleNames (semverFromString kind) rulesRange.
Proof.
  intros Hin Hne. unfold ruleNames. apply list_elem_of_fmap.
  exists (name, kind). split; [done|].
  apply list_elem_of_In, filter_In. split; [by apply list_elem_of_In|].
  unfold isRuleOf. simpl. rewrite eqK_refl, andb_true_r.
  apply negb_true_iff. by apply String.eqb_neq.
Qed.

Lemma existsb_elem {A} (f : A → bool) (l : list A) (x : A) :
  x ∈ l → f x = true → existsb f l = true.
Proof.
  intros Hin Hf. apply existsb_exists. exists x.
  split; [by apply list_elem_of_In|done].
Qed.

Lemma existsb_none {A} (f : A → bool) (l : list A) :
  (∀ x, x ∈ l → f x = false) → existsb f l = false.
Proof.
  intros H. apply not_true_is_false. intros (x & Hin & Hf)%existsb_exists.
  apply list_elem_of_In in Hin. rewrite (H x Hin) in Hf. done.
Qed.

(** X11.  When no commit has, up to case, the name of a rule as its type,
    and no commit is breaking while a rule "bang" exists, the bump is
    [SemVerNone]: no release. *)
Theorem X11_no_rule_no_bump (c : Context)
    (rulesRange : list (string * string)) (commits : Commits) :
  (∀ r, r ∈ commits →
     (Bang r = false ∨ Rules c !! "bang" = None)
     ∧ ∀ name, name ∈ rulesRange.*1 → ¬ typeIs r name) →
  determineBump c rulesRange commits = SemVerNone.
Proof.
  intros Hno. unfold determineBump.
  pose proof (λ k, groupRules_components k rulesRange) as Hcomp.
  destruct (groupRules rulesRange) as [bang components]. simpl in Hcomp.
  induction commits as [|r rest IH]; [done|].
  cbn [bumpLoop]. change (eqK SemVerNone SemVerMajor) with false. cbv iota.
  destruct (Hno r) as [Hbang Htype]; [by left|].
  unfold bumpStep.
  assert (Bang r && bool_decide (is_Some (Rules c !! "bang")) = false) as ->.
  { destruct Hbang as [-> | ->]; [done|].
    rewrite bool_decide_eq_false_2; [apply andb_false_r|].
    by intros [? ?]. }
  cbn [andb]. rewrite compLoop_no_match.
  - apply IH. intros r' Hr'. apply Hno. by right.
  - intros v l Hv. apply existsb_none. intros pr Hpr.
    apply String.eqb_neq. apply (Htype pr).
    rewrite Hcomp in Hv. apply (ruleNames_elem v).
    destruct (ruleNames v rulesRange); [done|]. by injection Hv as ->.
Qed.

Lemma X11_no_rule_no_bump_witness :
  determineBump (contextOf [("fix", "patch")] [] []) [("fix", "patch")]
    [commitOf "chore" "" "a" false; commitOf "docs" "" "b" true]
  = SemVerNone.
Proof.
  refine (X11_no_rule_no_bump _ _ _ _).
  intros r Hr. split; [by right|]. intros name Hname.
  apply list_elem_of_singleton in Hname as ->.
  apply elem_of_cons in Hr as [->|Hr];
    [|apply list_elem_of_singleton in Hr as ->]; by vm_compute.
Defined.

Lemma validSeverity_semver (kind : string) :
  validSeverity kind = true → semverFromString kind ∈ comps.
Proof.
  unfold validSeverity, semverFromString. cbv zeta.
  destruct (String.eqb_spec (strings.ToLower kind) "patch") as [->|_];
    [intros _; vm_compute; set_solver|].
  destruct (String.eqb_spec (strings.ToLower kind) "minor") as [->|_];
    [intros _; vm_compute; set_solver|].
  destruct (String.eqb_spec (strings.ToLower kind) "major") as [->|_];
    [intros _; vm_compute; set_solver|].
  done.
Qed.

Lemma comps_rank (k : SemVerComponent) : k ∈ comps → 1 ≤ rank k.
Proof.
  unfold comps. rewrite !elem_of_cons, elem_of_nil.
  intros [->|[->|[->|[]]]]; simpl; lia.
Qed.

(** X10.  With rules that pass the check of [run], a commit whose type is,
    up to case, the name of a rule other than "bang" always gives a
    release: the bump is not [SemVerNone], whatever the other commits and
    the order of the rules. *)
Theorem X10_matching_rule_bumps (c : Context)
    (rulesRange : list (string * string)) (commits : Commits)
    (r : ConventionalCommit) (name kind : string) :
  checkRules rulesRange = true →
  (name, kind) ∈ rulesRange → name ≠ "bang" →
  r ∈ commits → typeIs r name →
  determineBump c rulesRange commits ≠ SemVerNone.
Proof.
  intros Hcheck Hin Hne Hr Htype.
  assert (semverFromString kind ∈ comps) as Hk.
  { apply validSeverity_semver.
    unfold checkRules in Hcheck. rewrite forallb_forall in Hcheck.
    apply (Hcheck (name, kind)). by apply list_elem_of_In. }
  pose proof (ruleNames_intro rulesRange name kind Hin Hne) as Hnames.
  pose proof (groupRules_components (semverFromString kind) rulesRange)
    as Hcomp.
  unfold determineBump.
  destruct (groupRules rulesRange) as [bang components]. simpl in Hcomp.
  destruct (ruleNames (semverFromString kind) rulesRange) as [|n0 names]
    eqn:Hrn; [by apply elem_of_nil in Hnames|].
  apply list_elem_of_split in Hr as (pre & post & ->).
  rewrite bumpLoop_app.
  set (hasBang := bool_decide _).
  set (t1 := bumpLoop hasBang bang components SemVerNone pre).
  assert (1 ≤ rank (bumpLoop hasBang bang components t1 (r :: post))) as Hge.
  { simpl. destruct (eqK t1 SemVerMajor) eqn:Hm.
    - apply eqK_eq in Hm as ->. simpl. lia.
    - etrans; [|apply bumpLoop_ge]. unfold bumpStep.
      destruct (Bang r && hasBang && gtK bang t1) eqn:Hb.
      + apply andb_true_iff in Hb as [_ Hgt%gtK_lt]. lia.
      + destruct (decide (rank t1 ≤ rank (semverFromString kind)))
          as [Hle|Hgt].
        * apply comps_rank.
          eapply (compLoop_match components _ comps
                    (semverFromString kind) (n0 :: names)); try done.
          apply (existsb_elem _ _ name); [done|].
          apply String.eqb_eq, Htype.
        * pose proof (comps_rank _ Hk).
          pose proof (compLoop_ge components
                        (strings.ToLower (Type_ r)) comps t1). lia. }
  intros Heq. rewrite Heq in Hge. simpl in Hge. lia.
Qed.

Lemma X10_matching_rule_bumps_witness :
  determineBump (contextOf [("Fix", "Patch")] [] []) [("Fix", "Patch")]
    [commitOf "chore" "" "a" false; commitOf "fix" "" "b" false]
  ≠ SemVerNone.
Proof.
  refine (X10_matching_rule_bumps _ [("Fix", "Patch")] _
            (commitOf "fix" "" "b" false) "Fix" "Patch" _ _ _ _ _).
  - reflexivity.
  - by left.
  - discriminate.
  - right. by left.
  - reflexivity.
Defined.

Lemma filter_Permutation_bool {A} (f : A → bool) (l1 l2 : list A) :
  l1 ≡ₚ l2 → List.filter f l1 ≡ₚ List.filter f l2.
Proof.
  induction 1 as [|x l1 l2 _ IH|x y l|l1 l2 l3 _ IH1 _ IH2]; simpl.
  - done.
  - destruct (f x); by rewrite IH.
  - destruct (f x), (f y); try done. apply perm_swap.
  - by etrans.
Qed.

Lemma existsb_Permutation {A} (f : A → bool) (l1 l2 : list A) :
  l1 ≡ₚ l2 → existsb f l1 = existsb f l2.
Proof.
  induction 1 as [|x l1 l2 _ IH|x y l|l1 l2 l3 _ IH1 _ IH2]; simpl.
  - done.
  - by rewrite IH.
  - destruct (f x), (f y); done.
  - by etrans.
Qed.

Lemma compLoop_sameComponents (c1 c2 : componentsMap) prefix
    (vs : list SemVerComponent) :
  sameComponents c1 c2 →
  ∀ toBump, compLoop c1 prefix toBump vs = compLoop c2 prefix toBump vs.
Proof.
  intros Hsame. induction vs as [|v vs IH]; intros toBump; simpl; [done|].
  specialize (Hsame v).
  destruct (c1 v) as [l1|], (c2 v) as [l2|]; try done.
  rewrite (existsb_Permutation _ l1 l2 Hsame), IH. done.
Qed.

Lemma bumpLoop_sameComponents hasBang bang (c1 c2 : componentsMap)
    (commits : Commits) :
  sameComponents c1 c2 →
  ∀ toBump, bumpLoop hasBang bang c1 toBump commits
            = bumpLoop hasBang bang c2 toBump commits.
Proof.
  intros Hsame. induction commits as [|r rest IH]; intros toBump; simpl;
    [done|].
  unfold bumpStep. rewrite (compLoop_sameComponents c1 c2) by done.
  by rewrite IH.
Qed.

Lemma groupRules_bang_Permutation (l1 l2 : list (string * string)) :
  l1 ≡ₚ l2 → NoDup l1.*1 → (groupRules l1).1 = (groupRules l2).1.
Proof.
  intros Hperm Hnd1.
  assert (NoDup l2.*1) as Hnd2 by by rewrite <- Hperm.
  rewrite !groupRules_fold.
  destruct (decide ("bang" ∈ l1.*1)) as [Hin|Hnotin].
  - apply list_elem_of_fmap in Hin as ([n kind] & Hn & Hin).
    simpl in Hn. subst n.
    rewrite (groupStep_bang_present l1 kind) by done.
    rewrite (groupStep_bang_present l2 kind); [done|done|].
    by rewrite <- Hperm.
  - rewrite groupStep_bang_absent by done.
    rewrite groupStep_bang_absent; [done|]. by rewrite <- Hperm.
Qed.

Lemma groupRules_sameComponents (l1 l2 : list (string * string)) :
  l1 ≡ₚ l2 → sameComponents (groupRules l1).2 (groupRules l2).2.
Proof.
  intros Hperm k. rewrite !groupRules_components.
  assert (ruleNames k l1 ≡ₚ ruleNames k l2) as Hnames.
  { unfold ruleNames. by rewrite (filter_Permutation_bool _ l1 l2). }
  destruct (ruleNames k l1) as [|n1 r1], (ruleNames k l2) as [|n2 r2];
    try done.
  - by apply Permutation_nil_cons in Hnames.
  - symmetry in Hnames. by apply Permutation_nil_cons in Hnames.
Qed.

(** X9.  The bump does not depend on the order in which the runtime
    yields the rules of the map: two traversals of [c.Rules] give the same
    severity. *)
Theorem X9_rule_order_irrelevant (c : Context)
    (rulesRange1 rulesRange2 : list (string * string)) (commits : Commits) :
  rulesRange1 ≡ₚ map_to_list (Rules c) →
  rulesRange2 ≡ₚ map_to_list (Rules c) →
  determineBump c rulesRange1 commits = determineBump c rulesRange2 commits.
Proof.
  intros H1 H2.
  assert (rulesRange1 ≡ₚ rulesRange2) as Hperm by by rewrite H1, H2.
  assert (NoDup rulesRange1.*1) as Hnd.
  { rewrite H1. apply NoDup_fst_map_to_list. }
  pose proof (groupRules_bang_Permutation _ _ Hperm Hnd) as Hbang.
  pose proof (groupRules_sameComponents _ _ Hperm) as Hsame.
  unfold determineBump.
  destruct (groupRules rulesRange1) as [bang1 comps1].
  destruct (groupRules rulesRange2) as [bang2 comps2].
  simpl in Hbang, Hsame. subst bang2.
  by apply bumpLoop_sameComponents.
Qed.

Lemma X9_rule_order_irrelevant_witness :
  let rules := [("fix", "patch"); ("feat", "minor"); ("bang", "major")] in
  let commits := [commitOf "feat" "" "a" false; commitOf "fix" "" "b" true] in
  determineBump (contextOf rules [] []) rules commits
  = determineBump (contextOf rules [] []) (reverse rules) commits.
Proof.
  intros rules commits.
  refine (X9_rule_order_irrelevant (contextOf rules [] []) rules
            (reverse rules) commits _ _); compute_done.
Defined.

(** ** More on the notes composer *)

(** The keys of the buckets are keys of the categories. *)
Lemma bucketLoop_keys (m : list (string * string)) (rg : ranges)
    (commits : Commits) (cat : string) :
  (∀ i, rangeMatch rg i ≡ₚ m) →
  ∀ u i categories others,
    is_Some ((bucketLoop rg u i commits categories others).1 !! cat) →
    is_Some (categories !! cat) ∨ cat ∈ m.*1.
Proof.
  intros Hm. induction commits as [|r rest IH]; intros u i cats others;
    cbn [bucketLoop]; [by left|].
  destruct (findCategory _ (rangeMatch rg i)) as [cat'|] eqn:Hf.
  - intros [Hin|Hin]%IH; [|by right].
    destruct (decide (cat' = cat)) as [<-|Hne].
    + right. apply findCategory_Some in Hf as [Hf _]. by rewrite <- (Hm i).
    + left. by rewrite lookup_insert_ne in Hin.
  - apply IH.
Qed.

Lemma concat_nil_all {A} (ls : list (list A)) :
  (∀ l, l ∈ ls → l = []) → concat ls = [].
Proof.
  induction ls as [|l ls IH]; simpl; [done|].
  intros H. rewrite (H l) by by left. apply IH. intros l' ?. apply H.
  by right.
Qed.

(** X15.  When the lowered form of no category key is itself a key, as
    when every key has an upper-case letter, the release text is empty for
    every sequence of commits: the buckets are stored under the keys as
    written and read under the lowered keys. *)
Theorem X15_upper_case_keys_give_nothing (c : Context) (rg : ranges)
    (commits : Commits) :
  ranges_of (Categories c) rg →
  (∀ k, is_Some (Categories c !! k) →
        Categories c !! strings.ToLower k = None) →
  makeReleaseText c rg commits = EmptyString.
Proof.
  intros (_ & Hm & Ho) Hkeys. unfold makeReleaseText.
  rewrite releaseLines_sections, concat_nil_all; [done|].
  intros l ([id title] & -> & Hin)%list_elem_of_fmap.
  unfold sectionOf. cbn [fst snd].
  destruct (_ !! strings.ToLower id) as [items|] eqn:Hl; [|done].
  exfalso.
  assert (is_Some (Categories c !! id)) as Hid.
  { rewrite Ho in Hin. apply elem_of_map_to_list in Hin. by eexists. }
  specialize (Hkeys id Hid).
  destruct (bucketLoop_keys _ rg commits (strings.ToLower id) Hm
              _ 0 ∅ [] (mk_is_Some _ _ Hl)) as [[? Habs]|Hin'].
  - by rewrite lookup_empty in Habs.
  - apply list_elem_of_fmap in Hin' as ([k v] & Hk & Hkv).
    apply elem_of_map_to_list in Hkv. simpl in Hk. subst k. congruence.
Qed.

Lemma X15_upper_case_keys_give_nothing_witness :
  let categories := [("Feat", "Features"); ("Fix", "Fixes")] in
  makeReleaseText (contextOf [] categories []) (sameOrder categories)
    [commitOf "feat" "" "a" false; commitOf "Fix" "" "b" false]
  = EmptyString.
Proof.
  intros categories.
  refine (X15_upper_case_keys_give_nothing (contextOf [] categories [])
            (sameOrder categories) _ _ _).
  - split; [compute_done|]. split; [intros i|]; compute_done.
  - intros k [v Hk]. cbn [contextOf Categories] in *.
    apply elem_of_list_to_map_2 in Hk.
    apply elem_of_cons in Hk as [[= -> ->]|Hk];
      [|apply list_elem_of_singleton in Hk as [= -> ->]]; by vm_compute.
Defined.

(** With lower-case keys the category found for a type is the type. *)
Lemma findCategory_lower (commitType : string)
    (order : list (string * string)) :
  (∀ k, k ∈ order.*1 → strings.ToLower k = k) →
  findCategory commitType order
  = if bool_decide (commitType ∈ order.*1 ∧ commitType ≠ "*")
    then Some commitType else None.
Proof.
  intros Hlow. destruct (findCategory commitType order) as [cat|] eqn:Hf.
  - apply findCategory_Some in Hf as (Hin & Hne & ->).
    rewrite (Hlow _ Hin). by rewrite bool_decide_eq_true_2.
  - rewrite bool_decide_eq_false_2; [done|]. intros [Hin Hne].
    destruct (findCategory_None _ _ _ Hf Hin) as [?|Habs]; [done|].
    by rewrite (Hlow _ Hin) in Habs.
Qed.

Lemma linesOf_cons (cat : string) (r : ConventionalCommit)
    (rest : Commits) :
  linesOf cat (r :: rest)
  = if String.eqb (strings.ToLower (Type_ r)) cat
    then formatCommit r :: linesOf cat rest else linesOf cat rest.
Proof.
  unfold linesOf. cbn [List.filter].
  by destruct (String.eqb _ cat).
Qed.

(** The bucket of a category after the loop over the commits, when the
    keys are in lower case. *)
Lemma bucketLoop_lower (m : list (string * string)) (rg : ranges)
    (commits : Commits) (cat : string) :
  (∀ i, rangeMatch rg i ≡ₚ m) →
  (∀ k, k ∈ m.*1 → strings.ToLower k = k) →
  ∀ u i categories others,
    (bucketLoop rg u i commits categories others).1 !! cat
    = if bool_decide (cat ∈ m.*1 ∧ cat ≠ "*")
      then match linesOf cat commits with
           | [] => categories !! cat
           | lines => Some (default [] (categories !! cat) ++ lines)
           end
      else categories !! cat.
Proof.
  intros Hm Hlow.
  induction commits as [|r rest IH]; intros u i cats others.
  - cbn [bucketLoop fst]. unfold linesOf. simpl. by destruct (bool_decide _).
  - cbn [bucketLoop]. rewrite findCategory_lower
      by (intros k Hk; apply Hlow; by rewrite <- (Hm i)).
    rewrite linesOf_cons.
    destruct (bool_decide_reflect
                (strings.ToLower (Type_ r) ∈ (rangeMatch rg i).*1
                 ∧ strings.ToLower (Type_ r) ≠ "*")) as [[Hin Hne]|Hno].
    + rewrite IH.
      destruct (String.eqb_spec (strings.ToLower (Type_ r)) cat)
        as [<-|Hcat].
      * rewrite lookup_insert_eq.
        rewrite bool_decide_eq_true_2
          by (split; [by rewrite <- (Hm i)|done]).
        assert (∀ o : option (list string),
                  match o with Some v => v | None => [] end = default [] o)
          as -> by by intros [].
        cbn [default].
        destruct (linesOf _ rest) as [|l ls]; [done|].
        unfold id. by rewrite <- app_assoc.
      * by rewrite lookup_insert_ne.
    + rewrite IH.
      destruct (bool_decide_reflect (cat ∈ m.*1 ∧ cat ≠ "*"))
        as [[Hin Hne]|_]; [|done].
      destruct (String.eqb_spec (strings.ToLower (Type_ r)) cat)
        as [Heq|_]; [|done].
      destruct Hno. subst cat. split; [by rewrite (Hm i)|done].
Qed.

(** X14.  When every category key is in lower case, the release text is
    determined by the last loop alone: for each category in the order in
    which that loop visits them, other than "*" and those no commit
    belongs to, the title followed by the lines of the commits whose lowered
    type is the key, in the order of the commits. *)
Theorem X14_lower_case_keys_text (c : Context) (rg : ranges)
    (commits : Commits) :
  ranges_of (Categories c) rg →
  (∀ k, is_Some (Categories c !! k) → strings.ToLower k = k) →
  makeReleaseText c rg commits
  = strings.Join (concat (expectedSection commits <$> rangeOutput rg)) nl.
Proof.
  intros (_ & Hm & Ho) Hkeys. unfold makeReleaseText. f_equal.
  rewrite releaseLines_sections. f_equal.
  assert (∀ k, k ∈ (map_to_list (Categories c)).*1 → strings.ToLower k = k)
    as Hlow.
  { intros k ([k' v] & -> & Hkv%elem_of_map_to_list)%list_elem_of_fmap.
    apply Hkeys. by eexists. }
  apply list_fmap_ext. intros j [id title] Hj.
  assert (id ∈ (map_to_list (Categories c)).*1) as Hid.
  { rewrite <- Ho. apply list_elem_of_fmap. exists (id, title).
    split; [done|]. by eapply list_elem_of_lookup_2. }
  unfold sectionOf, expectedSection. cbn [fst snd].
  rewrite (Hlow _ Hid).
  rewrite (bucketLoop_lower _ rg commits id Hm Hlow).
  rewrite lookup_empty. cbn [default app].
  destruct (String.eqb_spec id "*") as [->|Hne].
  - by rewrite bool_decide_eq_false_2 by by intros [_ ?].
  - rewrite bool_decide_eq_true_2 by done.
    by destruct (linesOf id commits).
Qed.

Lemma X14_lower_case_keys_text_witness :
  let categories := [("feat", "Features"); ("fix", "Fixes")] in
  let commits := [commitOf "fix" "" "a" false; commitOf "Feat" "ui" "b" false;
                  commitOf "docs" "" "c" false; commitOf "fix" "" "d" false] in
  makeReleaseText (contextOf [] categories []) (sameOrder categories) commits
  = strings.Join
      (concat (expectedSection commits
                 <$> rangeOutput (sameOrder categories))) nl.
Proof.
  intros categories commits.
  refine (X14_lower_case_keys_text (contextOf [] categories [])
            (sameOrder categories) commits _ _).
  - split; [compute_done|]. split; [intros i|]; compute_done.
  - intros k [v Hk]. cbn [contextOf Categories] in *.
    apply elem_of_list_to_map_2 in Hk.
    apply elem_of_cons in Hk as [[= -> ->]|Hk];
      [|apply list_elem_of_singleton in Hk as [= -> ->]]; by vm_compute.
Defined.

(** ** More on the version reader *)

Lemma Split_length (s : string) (sep : ascii) :
  length (strings.Split s sep) = S (countByte sep s).
Proof.
  induction s as [|c r IH]; [done|]. cbn [strings.Split countByte].
  destruct (Ascii.eqb c sep); cbn [length]; [by rewrite IH|].
  pose proof (strings_facts.Split_nonempty r sep) as Hn.
  by destruct (strings.Split r sep) as [|h t].
Qed.

(** X13.  [parseSemVer] panics, with an index out of range, exactly on
    the versions that have fewer than two dots after the leading v; with two
    dots or more it returns, whatever stands between the dots. *)
Theorem X13_parseSemVer_panics (v : string) :
  parseSemVer v = None ↔ countByte chDot (strings.TrimPrefix v "v") < 2.
Proof.
  unfold parseSemVer.
  pose proof (Split_length (strings.TrimPrefix v "v") chDot) as Hlen.
  destruct (strings.Split _ chDot) as [|c0 [|c1 [|c2 t]]];
    cbn [length] in Hlen; split; intros H; (done || lia).
Qed.

Lemma Split_prefix (a b : string) (sep : ascii) :
  allb (λ x, negb (Ascii.eqb x sep)) a = true →
  strings.Split (a +:+ b) sep
  = (a +:+ hd EmptyString (strings.Split b sep)) :: tl (strings.Split b sep).
Proof.
  induction a as [|c a IH].
  - intros _. rewrite !append_nil_l.
    pose proof (strings_facts.Split_nonempty b sep). by destruct (strings.Split b sep).
  - cbn [allb]. intros [Hc Ha]%andb_true_iff. apply negb_true_iff in Hc.
    rewrite !append_cons. cbn [strings.Split]. by rewrite Hc, (IH Ha).
Qed.

Lemma uint_of_string_None (a b : string) (c : ascii) :
  isDigit c = false →
  NilEmpty.uint_of_string (a +:+ String c b) = None.
Proof.
  intros Hc. induction a as [|d a IH].
  - rewrite append_nil_l. cbn [NilEmpty.uint_of_string].
    destruct (NilEmpty.uint_of_string b); [|done].
    destruct c as [[] [] [] [] [] [] [] []]; done.
  - rewrite append_cons. cbn [NilEmpty.uint_of_string]. by rewrite IH.
Qed.

(** Digits that fit a [uint64], followed by a byte that is no digit, are
    not a number: [ParseUint] reaches the byte and returns a syntax
    error. *)
Lemma Atoi_not_number (u : Decimal.uint) (b : string) (c : ascii) :
  u ≠ Decimal.Nil → (Z.of_uint u ≤ maxUint64)%Z → isDigit c = false →
  Atoi (NilEmpty.string_of_uint u +:+ String c b) = 0%Z.
Proof.
  intros Hu Hfit Hc. unfold Atoi.
  pose proof (string_of_uint_digits u) as Hd.
  destruct (NilEmpty.string_of_uint u) as [|d a] eqn:Ha; [by destruct u|].
  rewrite append_cons. cbn [allb] in Hd.
  apply andb_true_iff in Hd as [Hd Hda].
  destruct (Ascii.eqb_spec d "-"%char) as [->|_]; [done|].
  destruct (Ascii.eqb_spec d "+"%char) as [->|_]; [done|].
  cbn [eql.isEmpty]. rewrite <- append_cons.
  rewrite uint_of_string_None by done.
  rewrite span_app; [|by cbn [allb]; rewrite Hd, Hda|done].
  rewrite <- Ha, NilEmpty.usu.
  by destruct (Z.ltb_spec maxUint64 (Z.of_uint u)); [lia|].
Qed.

(** X16.  A suffix after a hyphen, as in v1.2.3-rc.1, makes the third
    number unreadable: for numbers in the range of [int] the error of
    [strconv.Atoi] is dropped and PATCH is read as 0, so that the patch
    release after v1.2.3-rc.1 is v1.2.1. *)
Theorem X16_prerelease_patch_is_zero (major minor patch : Z)
    (suffix : string) :
  (0 ≤ major ≤ maxInt64)%Z → (0 ≤ minor ≤ maxInt64)%Z →
  (0 ≤ patch ≤ maxInt64)%Z →
  parseSemVer (versionString major minor patch +:+ "-" +:+ suffix)
  = Some (major, minor, 0%Z)
  ∧ bumpVersion (major, minor, 0%Z) SemVerPatch
    = Some (versionString major minor 1).
Proof.
  intros HM Hm Hp. split; [|done]. unfold parseSemVer, versionString.
  destruct (formatInt_digits major (proj1 HM)) as [HdM _].
  destruct (formatInt_digits minor (proj1 Hm)) as [Hdm _].
  destruct (formatInt_digits patch (proj1 Hp)) as [Hdp _].
  destruct (formatInt_nonneg patch (proj1 Hp)) as (u & Hfmt & Hu & Hval).
  rewrite !append_assoc.
  change (strings.TrimPrefix ("v" +:+ ?x) "v")
    with (strings.TrimPrefix (String "v" x) "v").
  assert (∀ x, strings.TrimPrefix (String "v" x) "v" = x) as ->.
  { intros x. unfold strings.TrimPrefix. simpl. by destruct x. }
  change ("." +:+ ?x) with (String chDot x).
  rewrite Split_app by by apply digits_no_dot.
  change ("." +:+ ?x) with (String chDot x).
  rewrite Split_app by by apply digits_no_dot.
  rewrite Split_prefix by by apply digits_no_dot.
  rewrite !Atoi_formatInt by done.
  change ("-" +:+ suffix) with (String "-" suffix).
  cbn [strings.Split]. change (Ascii.eqb "-" chDot) with false. cbv iota.
  pose proof (strings_facts.Split_nonempty suffix chDot) as Hn.
  destruct (strings.Split suffix chDot) as [|h t]; [done|]. cbn [hd tl].
  rewrite Hfmt, Atoi_not_number; [done|done| |done].
  rewrite Hval. unfold maxUint64, maxInt64 in *. lia.
Qed.

Lemma X16_prerelease_patch_is_zero_witness :
  parseSemVer "v1.2.3-rc.1" = Some (1, 2, 0)%Z
  ∧ bumpVersion (1, 2, 0)%Z SemVerPatch = Some "v1.2.1".
Proof.
  refine (X16_prerelease_patch_is_zero 1 2 3 "rc.1" _ _ _);
    unfold maxInt64; lia.
Defined.

(** The range error comes first: when the digits before the byte that is
    no digit already exceed [maxUint64], the value is the largest [int]. *)
Example Atoi_range_before_syntax :
  Atoi "18446744073709551616-rc" = maxInt64
  ∧ Atoi "18446744073709551615-rc" = 0%Z.
Proof. by vm_compute. Qed.

(** ** More on the commit loop of [run] *)

Lemma countIgnored_count (ignore : list string) (r : ConventionalCommit) :
  ∀ excluded,
    countIgnored ignore r excluded
    = excluded + ignoredPairs ignore [r].
Proof.
  unfold countIgnored, ignoredPairs. cbn [list_prod]. rewrite app_nil_r.
  induction ignore as [|v ignore IH]; intros excluded;
    cbn [fold_left List.map List.filter fst snd]; [by cbn; lia|].
  rewrite IH. destruct (String.eqb _ (Type_ r)); cbn [length]; lia.
Qed.

Lemma ignoredPairs_cons (ignore : list string) (r : ConventionalCommit)
    (rest : Commits) :
  ignoredPairs ignore (r :: rest)
  = ignoredPairs ignore [r] + ignoredPairs ignore rest.
Proof.
  unfold ignoredPairs. cbn [list_prod].
  by rewrite app_nil_r, List.filter_app, length_app.
Qed.

(** The loop up to the commit of the last release, from any state. *)
Lemma collect_split (c : Context) (head : string)
    (before : list Commit) (h : Commit) (after : list Commit) :
  Hash h = head → (∀ x, x ∈ before → Hash x ≠ head) →
  ∀ conventionals excluded,
    collect c head (before ++ h :: after) conventionals excluded
    = Some (conventionals ++ parsedOf before,
            excluded + ignoredPairs (Ignore c) (parsedOf before)).
Proof.
  intros Hh. induction before as [|x before IH]; intros Hb conv ex.
  - cbn [app collect]. rewrite Hh, String.eqb_refl.
    rewrite app_nil_r. f_equal. f_equal. cbn. lia.
  - cbn [app collect].
    destruct (String.eqb_spec (Hash x) head) as [Heq|_].
    { destruct (Hb x); [by left|done]. }
    assert (∀ y, y ∈ before → Hash y ≠ head) as Hb'
        by (intros y ?; apply Hb; by right).
    unfold parsedOf. cbn [omap list_omap].
    destruct (ParseCommit _) as [r|].
    + rewrite (IH Hb'). fold (parsedOf before).
      rewrite <- app_assoc. cbn [app]. f_equal. f_equal.
      rewrite countIgnored_count.
      rewrite (ignoredPairs_cons _ r (parsedOf before)). lia.
    + by rewrite (IH Hb').
Qed.

(** X17.  When the log reaches the commit of the last release, the
    commit loop stops there: the commits it hands on are the conventional
    ones among the messages before that commit, in the order of the log,
    whatever the ignore list; the count of excluded commits is the number of
    pairs of such a commit and an ignore entry whose lowered form is the
    type as written, so that an entry listed twice counts twice and a type
    with an upper-case letter never counts. *)
Theorem X17_collect_until_head (c : Context) (head : string)
    (before : list Commit) (h : Commit) (after : list Commit) :
  Hash h = head → (∀ x, x ∈ before → Hash x ≠ head) →
  collect c head (before ++ h :: after) [] 0
  = Some (parsedOf before, ignoredPairs (Ignore c) (parsedOf before)).
Proof.
  intros Hh Hb. by rewrite (collect_split c head before h after Hh Hb).
Qed.

Lemma X17_collect_until_head_witness :
  let log1 := [ {| Hash := "h3"; Message := "fix: a" |};
                {| Hash := "h2"; Message := "merge branch" |} ] in
  let h := {| Hash := "h1"; Message := "feat: b" |} in
  let log2 := [ {| Hash := "h0"; Message := "fix: c" |} ] in
  collect (contextOf [] [] ["fix"; "fix"]) "h1" (log1 ++ h :: log2) [] 0
  = Some (parsedOf log1, ignoredPairs ["fix"; "fix"] (parsedOf log1)).
Proof.
  intros log1 h log2.
  refine (X17_collect_until_head (contextOf [] [] ["fix"; "fix"]) "h1"
            log1 h log2 eq_refl _).
  intros x [->|Hx]%elem_of_cons; [done|].
  apply list_elem_of_singleton in Hx as ->. done.
Defined.

(** X18.  The commit loop aborts exactly when no commit of the log is the
    commit of the last release: it then reads the log to its end, where
    the iterator returns an error. *)
Theorem X18_collect_aborts (c : Context) (head : string)
    (log : list Commit) :
  collect c head log [] 0 = None ↔ ∀ x, x ∈ log → Hash x ≠ head.
Proof.
  split.
  - intros Hnone x Hx Hhash.
    assert (∃ before h after, log = before ++ h :: after ∧ Hash h = head
              ∧ ∀ y, y ∈ before → Hash y ≠ head) as
        (before & h & after & -> & Hh & Hb).
    { clear Hnone. induction log as [|y log IH]; [by apply elem_of_nil in Hx|].
      destruct (decide (Hash y = head)) as [Hy|Hy].
      - exists [], y, log. split; [done|]. split; [done|].
        by intros ? ?%elem_of_nil.
      - apply elem_of_cons in Hx as [->|Hx]; [done|].
        destruct (IH Hx) as (before & h & after & -> & Hh & Hb).
        exists (y :: before), h, after. split; [done|]. split; [done|].
        intros z [->|?]%elem_of_cons; auto. }
    by rewrite (collect_split c head before h after Hh Hb) in Hnone.
  - generalize (@nil ConventionalCommit) 0.
    induction log as [|y log IH]; intros conv ex Hall; [done|].
    cbn [collect]. destruct (String.eqb_spec (Hash y) head) as [Heq|_].
    { destruct (Hall y); [by left|done]. }
    destruct (ParseCommit _); apply IH; intros z ?; apply Hall; by right.
Qed.

(** * The earlier version *)

(** ** Its commit parser *)

Lemma earlier_ParseCommitFuel_single fuel msg :
  MatchString multiLineCommit msg = false →
  earlier.ParseCommitFuel (S fuel) msg = Some (earlier.parseHeader msg).
Proof. intros H. cbn [earlier.ParseCommitFuel]. by rewrite H. Qed.

(** Two levels of calls are enough for the earlier parser too: it returns
    on every message. *)
Lemma earlier_ParseCommit_fuel fuel msg :
  earlier.ParseCommitFuel (S (S fuel)) msg = Some (earlier.ParseCommit msg).
Proof.
  unfold earlier.ParseCommit.
  change (earlier.ParseCommitFuel (S (S fuel)) msg)
    with (if MatchString multiLineCommit msg then
            let lines := strings.Split msg chNL in
            match earlier.ParseCommitFuel (S fuel) (hd EmptyString lines) with
            | None => None
            | Some None => Some None
            | Some (Some res) =>
                let res :=
                  fold_left (λ res l, if isBreakingFooter l
                                      then earlier.setSemVerChange res SemVerMajor
                                      else res) (tl lines) res in
                Some (Some (earlier.setBody res (strings.Join (tl lines) nl)))
            end
          else Some (earlier.parseHeader msg)).
  change (earlier.ParseCommitFuel 2 msg)
    with (if MatchString multiLineCommit msg then
            let lines := strings.Split msg chNL in
            match earlier.ParseCommitFuel 1 (hd EmptyString lines) with
            | None => None
            | Some None => Some None
            | Some (Some res) =>
                let res :=
                  fold_left (λ res l, if isBreakingFooter l
                                      then earlier.setSemVerChange res SemVerMajor
                                      else res) (tl lines) res in
                Some (Some (earlier.setBody res (strings.Join (tl lines) nl)))
            end
          else Some (earlier.parseHeader msg)).
  destruct (MatchString multiLineCommit msg) eqn:Hm; [|done].
  cbv zeta.
  rewrite !earlier_ParseCommitFuel_single by apply first_line_not_multiLine.
  by destruct (earlier.parseHeader _).
Qed.

Lemma earlier_parseHeader_of (msg : string) :
  earlier.parseHeader msg = earlierOf <$> parseHeader msg.
Proof.
  unfold earlier.parseHeader, parseHeader.
  destruct (MatchString conventionalRegexp msg); [|done]. cbn [negb].
  destruct (FindStringSubmatch_conventional msg) as [[[[k sc] b] d]|]; [|done].
  cbn [fmap option_fmap option_map]. f_equal.
  unfold earlierOf, changeOf, severityOf.
  cbn [Type_ Bang Scope Description Body].
  destruct (String.eqb (strings.ToLower k) "fix") eqn:Hfix.
  - by destruct (String.eqb b (str1 chBang)).
  - destruct (String.eqb (strings.ToLower k) "feat");
      by destruct (String.eqb b (str1 chBang)).
Qed.

Lemma earlierOf_footers (lines : list string) : ∀ res,
  fold_left (λ res l, if isBreakingFooter l
                      then earlier.setSemVerChange res SemVerMajor
                      else res) lines (earlierOf res)
  = earlierOf (fold_left (λ res l, if isBreakingFooter l then setBang res
                                   else res) lines res).
Proof.
  induction lines as [|l lines IH]; intros res; [done|].
  cbn [fold_left]. destruct (isBreakingFooter l); [|apply IH].
  by rewrite <- IH.
Qed.

(** X19.  The two versions of [ParseCommit] accept the same messages and
    read the same type, scope, description and body.  Where the later
    version records a breaking change in [Bang], the earlier one sets the
    severity [SemVerMajor]; without one it gives a fix [SemVerPatch], a feat
    [SemVerMinor] and any other type [SemVerNone], the type being compared
    in lower case. *)
Theorem X19_parsers_agree (msg : string) :
  earlier.ParseCommit msg = earlierOf <$> ParseCommit msg.
Proof.
  rewrite ParseCommit_unfold. unfold earlier.ParseCommit.
  cbn [earlier.ParseCommitFuel].
  destruct (MatchString multiLineCommit msg) eqn:Hm.
  - cbv zeta.
    rewrite (first_line_not_multiLine msg).
    rewrite (ParseCommit_unfold (hd _ _)), (first_line_not_multiLine msg).
    rewrite earlier_parseHeader_of.
    destruct (parseHeader _) as [res|]; [|done].
    cbn [fmap option_fmap option_map]. f_equal.
    by rewrite earlierOf_footers.
  - apply earlier_parseHeader_of.
Qed.

(** ** Its bump *)

Lemma ChangeKind_map (c : earlier.Commits) (n : nat) :
  ∀ m : gmap nat bool,
    fold_left (λ m c, <[rank (earlier.SemVerChange c) := true]> m) c m !! n
    = if existsb (λ r, rank (earlier.SemVerChange r) =? n) c
      then Some true else m !! n.
Proof.
  induction c as [|r c IH]; intros m; [done|].
  cbn [fold_left existsb]. rewrite IH.
  destruct (existsb _ c); [by rewrite orb_true_r|]. rewrite orb_false_r.
  destruct (Nat.eqb_spec (rank (earlier.SemVerChange r)) n) as [->|Hne].
  - by rewrite lookup_insert_eq.
  - by rewrite lookup_insert_ne.
Qed.

Lemma ChangeKind_cons (r : earlier.ConventionalCommit)
    (c : earlier.Commits) :
  earlier.ChangeKind (r :: c)
  = maxK (earlier.SemVerChange r) (earlier.ChangeKind c).
Proof.
  unfold earlier.ChangeKind. rewrite !ChangeKind_map, !lookup_empty.
  cbn [existsb].
  destruct (earlier.SemVerChange r);
    destruct (existsb (λ r, rank (earlier.SemVerChange r) =? rank SemVerMajor) c),
             (existsb (λ r, rank (earlier.SemVerChange r) =? rank SemVerMinor) c),
             (existsb (λ r, rank (earlier.SemVerChange r) =? rank SemVerPatch) c);
    reflexivity.
Qed.

(** X20.  [ChangeKind] returns the greatest severity among the commits:
    no commit has a greater one, and it is [SemVerNone] or the severity of
    one of the commits. *)
Theorem X20_ChangeKind_greatest (c : earlier.Commits) :
  (∀ r, r ∈ c → rank (earlier.SemVerChange r) ≤ rank (earlier.ChangeKind c))
  ∧ (earlier.ChangeKind c = SemVerNone
     ∨ ∃ r, r ∈ c ∧ earlier.SemVerChange r = earlier.ChangeKind c).
Proof.
  induction c as [|r c [IHle IHattained]].
  - split; [by intros r ?%elem_of_nil|by left].
  - rewrite ChangeKind_cons. unfold maxK.
    destruct (gtK (earlier.ChangeKind c) (earlier.SemVerChange r)) eqn:Hgt.
    + apply gtK_lt in Hgt. split.
      * intros x [->|Hx]%elem_of_cons; [lia|by apply IHle].
      * destruct IHattained as [Hnone|(x & Hx & Heq)]; [by left|].
        right. exists x. split; [by right|done].
    + assert (rank (earlier.ChangeKind c) ≤ rank (earlier.SemVerChange r)).
      { destruct (gtK_lt (earlier.ChangeKind c) (earlier.SemVerChange r))
          as [_ H].
        destruct (decide (rank (earlier.SemVerChange r)
                          < rank (earlier.ChangeKind c))) as [Hlt|]; [|lia].
        by rewrite (H Hlt) in Hgt. }
      split.
      * intros x [->|Hx]%elem_of_cons; [lia|].
        specialize (IHle x Hx). lia.
      * right. exists r. split; [by left|done].
Qed.

(** The body of the loop of [determineBump] under the rules of the earlier
    version. *)
Lemma bumpStep_earlierRules (toBump : SemVerComponent)
    (r : ConventionalCommit) :
  toBump ≠ SemVerMajor →
  bumpStep true SemVerMajor (groupRules earlierRules).2 toBump r
  = maxK toBump (severityOf (Type_ r) (Bang r)).
Proof.
  intros Hne. unfold bumpStep, severityOf.
  destruct (Bang r).
  { by destruct toBump. }
  cbn [andb]. unfold comps.
  assert ((groupRules earlierRules).2 SemVerMajor = None) as HM by done.
  assert ((groupRules earlierRules).2 SemVerMinor = Some ["feat"]) as Hm
      by done.
  assert ((groupRules earlierRules).2 SemVerPatch = Some ["fix"]) as Hp
      by done.
  cbn [compLoop]. rewrite HM, Hm, Hp. cbn [existsb].
  change (strings.ToLower "feat") with "feat".
  change (strings.ToLower "fix") with "fix".
  rewrite !orb_false_r.
  rewrite (String.eqb_sym "feat"), (String.eqb_sym "fix").
  destruct (String.eqb_spec (strings.ToLower (Type_ r)) "fix") as [->|_].
  - by destruct toBump.
  - destruct (String.eqb (strings.ToLower (Type_ r)) "feat");
      by destruct toBump.
Qed.

Lemma bumpLoop_earlierRules (commits : Commits) : ∀ toBump,
  bumpLoop true SemVerMajor (groupRules earlierRules).2 toBump commits
  = maxK toBump (earlier.ChangeKind (earlierOf <$> commits)).
Proof.
  induction commits as [|r rest IH]; intros toBump.
  - by destruct toBump.
  - cbn [bumpLoop fmap list_fmap]. rewrite ChangeKind_cons.
    destruct (eqK toBump SemVerMajor) eqn:HM.
    + apply eqK_eq in HM as ->.
      by destruct (earlier.SemVerChange (earlierOf r)),
                  (earlier.ChangeKind (earlierOf <$> rest)).
    + assert (toBump ≠ SemVerMajor) as Hne.
      { intros ->. by rewrite eqK_refl in HM. }
      rewrite IH, bumpStep_earlierRules by done.
      cbn [earlierOf earlier.SemVerChange].
      by destruct toBump, (severityOf _ _), (earlier.ChangeKind _).
Qed.

(** X21.  With the rules fix=patch, feat=minor and bang=major the later
    version bumps as the earlier one did: whatever the order in which the
    runtime yields the rules, [determineBump] returns what [ChangeKind]
    returned on the same commits. *)
Theorem X21_earlier_rules_same_bump (c : Context)
    (rulesRange : list (string * string)) (commits : Commits) :
  Rules c = list_to_map earlierRules →
  rulesRange ≡ₚ map_to_list (Rules c) →
  determineBump c rulesRange commits
  = earlier.ChangeKind (earlierOf <$> commits).
Proof.
  intros Hrules Hperm. rewrite Hrules in Hperm.
  rewrite map_to_list_to_map in Hperm by compute_done.
  assert (NoDup rulesRange.*1) as Hnd by (rewrite Hperm; compute_done).
  pose proof (groupRules_bang_Permutation _ _ Hperm Hnd) as Hbang.
  pose proof (groupRules_sameComponents _ _ Hperm) as Hsame.
  unfold determineBump. rewrite Hrules.
  destruct (groupRules rulesRange) as [bang components].
  cbn [fst snd] in Hbang, Hsame.
  rewrite (bumpLoop_sameComponents _ _ _ _ commits Hsame).
  rewrite Hbang.
  change (bool_decide (is_Some (list_to_map earlierRules !! "bang")))
    with true at 1.
  change (groupRules earlierRules).1 with SemVerMajor.
  rewrite bumpLoop_earlierRules. by destruct (earlier.ChangeKind _).
Qed.

Lemma X21_earlier_rules_same_bump_witness :
  let commits := [commitOf "docs" "" "a" false; commitOf "Fix" "" "b" false;
                  commitOf "feat" "ui" "c" false] in
  determineBump (contextOf earlierRules [] []) (reverse earlierRules) commits
  = earlier.ChangeKind (earlierOf <$> commits).
Proof.
  intros commits.
  refine (X21_earlier_rules_same_bump (contextOf earlierRules [] [])
            (reverse earlierRules) commits eq_refl _).
  compute_done.
Defined.

(** ** Its notes *)

(** The three slices after the loop over the commits. *)
Lemma releaseStep_fold (cs : earlier.Commits) : ∀ feats fixes others,
  fold_left earlier.releaseStep cs (feats, fixes, others)
  = (feats ++ (lineOf <$> List.filter
                            (hasChange earlier.ConventionalFeature) cs),
     fixes ++ (lineOf <$> List.filter
                            (hasChange earlier.ConventionalFix) cs),
     others ++ (lineOf <$> List.filter
                             (hasChange earlier.ConventionalOther) cs)).
Proof.
  induction cs as [|c cs IH]; intros feats fixes others.
  - cbn. by rewrite !app_nil_r.
  - cbn [fold_left List.filter].
    assert (earlier.releaseStep (feats, fixes, others) c
            = match earlier.Change c with
              | earlier.ConventionalFeature =>
                  (feats ++ [lineOf c], fixes, others)
              | earlier.ConventionalFix =>
                  (feats, fixes ++ [lineOf c], others)
              | earlier.ConventionalOther =>
                  (feats, fixes, others ++ [lineOf c])
              end) as ->.
    { unfold earlier.releaseStep, lineOf.
      destruct (earlier.Change c); [|done|done].
      by destruct (negb (eql.isEmpty (earlier.Scope c))). }
    unfold hasChange.
    destruct (earlier.Change c); rewrite IH; cbn [fmap list_fmap];
      by rewrite <- !app_assoc.
Qed.

Lemma titled_append (title : string) (items output : list string) :
  (if (0 <? length items)%nat then (output ++ [title]) ++ items else output)
  = output ++ titled title items.
Proof.
  destruct items as [|i items]; cbn [length Nat.ltb Nat.leb titled].
  - by rewrite app_nil_r.
  - by rewrite <- app_assoc.
Qed.

(** X22.  The text that [makeRelease] of the earlier version returns is,
    joined by line feeds: the title of the features and the lines of the
    feature commits, then the title of the fixes and the lines of the fix
    commits, then the title of the other changes and the lines of the
    commits of any other type; each group in the order of the commits, and
    left out with its title when it has no commit. *)
Theorem X22_makeRelease_text (conventionals : earlier.Commits) :
  earlier.makeRelease conventionals
  = strings.Join
      (titled "# ✨ New Features"
              (lineOf <$> List.filter
                            (hasChange earlier.ConventionalFeature)
                            conventionals)
       ++ titled "# 🐞 Bug Fixes"
                 (lineOf <$> List.filter
                               (hasChange earlier.ConventionalFix)
                               conventionals)
       ++ titled "# 🔨 Other Changes"
                 (lineOf <$> List.filter
                               (hasChange earlier.ConventionalOther)
                               conventionals))
      nl.
Proof.
  unfold earlier.makeRelease, earlier.makeReleaseLines. f_equal.
  rewrite releaseStep_fold. cbv zeta.
  rewrite !titled_append. cbn [app]. by rewrite <- !app_assoc.
Qed.
